(** * gson/cbor: the CBOR codec and the JSON-pointer engine over CBOR bytes

    A shallow embedding of [cbor/codec.go] (the RFC 7049 encoder and decoder
    with its 256-entry dispatch table) and of the RFC 6901 pointer layer that
    follows it in the same package ([FromJsonPointer], [ToJsonPointer],
    [lookup], [get], [set], [del] and the structural walker), with the
    properties of the specification stated over it.

    Conventions of the embedding.
    - A Go [byte] is a [Z] in [0, 256); the fixed-width integer types are [Z]
      with the wrap-around of every conversion written out ([uint8], [int8],
      ..., [int64]).  Go's [int] is taken to be 64 bits wide.
    - A slice is the list of its elements and its capacity is its length, as
      for a slice obtained from [make] or from a literal.  A callee that
      writes into a slice returns the new contents; writing through the
      sub-slice [buf[n:]] is [within buf n].
    - A sum of [int]s with an operand read from the data (a decoded length,
      a walked size) wraps as a 64-bit sum, [add]; a counter that a slice's
      length bounds is a plain sum.
    - A Go panic is the result [Panic e].  Loops and recursion run on fuel,
      and [OutOfFuel] is the answer of a run that did not finish within
      it. *)

From stdpp Require Import list numbers gmap.

Local Open Scope Z_scope.

(** ** Go runtime: panics, integers, slices *)

Module Go.

Inductive error : Type :=
| ErrorDecodeFloat16
| ErrorDecodeExceedInt64
| ErrorDecodeInfoReserved
| ErrorDecodeIndefinite
| ErrorDecodeSimpleType
| ErrorUnknownType
| ErrorExpectedJsonPointer
| ErrorExpectedCborPointer
| ErrorInvalidArrayOffset
| ErrorInvalidPointer
| ErrorNoKey
| ErrorMalformedDocument
| ErrorInvalidDocument
| IndexOutOfRange        (* runtime error: index out of range *)
| SliceBoundsOutOfRange  (* runtime error: slice bounds out of range *)
| MakeLenOutOfRange      (* runtime error: makeslice: len out of range *)
| NilDereference.        (* runtime error: invalid memory address or nil
                            pointer dereference *)

Inductive result (A : Type) : Type :=
| Ok (a : A)
| Panic (e : error)
| OutOfFuel.
Arguments Ok {A} a.
Arguments Panic {A} e.
Arguments OutOfFuel {A}.

Definition bind {A B : Type} (m : result A) (k : A -> result B) : result B :=
  match m with
  | Ok a => k a
  | Panic e => Panic e
  | OutOfFuel => OutOfFuel
  end.

Definition is_ok {A : Type} (m : result A) : bool :=
  match m with Ok _ => true | _ => false end.

(** Conversions to the fixed-width integer types. *)
Definition unsigned (w : Z) (z : Z) : Z := z mod 2 ^ w.
Definition signed (w : Z) (z : Z) : Z :=
  (z + 2 ^ (w - 1)) mod 2 ^ w - 2 ^ (w - 1).

Definition uint8 := unsigned 8.
Definition uint16 := unsigned 16.
Definition uint32 := unsigned 32.
Definition uint64 := unsigned 64.
Definition int8 := signed 8.
Definition int16 := signed 16.
Definition int32 := signed 32.
Definition int64 := signed 64.

(** [a + b] on [int] *)
Definition add (a b : Z) : Z := int64 (a + b).

Definition len {A : Type} (s : list A) : Z := Z.of_nat (length s).

(** [s[i]] *)
Definition load {A : Type} (s : list A) (i : Z) : result A :=
  if (0 <=? i) && (i <? len s) then
    match s !! Z.to_nat i with
    | Some x => Ok x
    | None => Panic IndexOutOfRange
    end
  else Panic IndexOutOfRange.

(** [s[i] = x] *)
Definition store {A : Type} (s : list A) (i : Z) (x : A) : result (list A) :=
  if (0 <=? i) && (i <? len s) then Ok (<[Z.to_nat i := x]> s)
  else Panic IndexOutOfRange.

(** [s[n:]] *)
Definition slice_from {A : Type} (s : list A) (n : Z) : result (list A) :=
  if (0 <=? n) && (n <=? len s) then Ok (drop (Z.to_nat n) s)
  else Panic SliceBoundsOutOfRange.

(** [s[:m]] *)
Definition slice_to {A : Type} (s : list A) (m : Z) : result (list A) :=
  if (0 <=? m) && (m <=? len s) then Ok (take (Z.to_nat m) s)
  else Panic SliceBoundsOutOfRange.

(** [s[n:m]] *)
Definition slice {A : Type} (s : list A) (n m : Z) : result (list A) :=
  if (0 <=? n) && (n <=? m) && (m <=? len s)
  then Ok (take (Z.to_nat (m - n)) (drop (Z.to_nat n) s))
  else Panic SliceBoundsOutOfRange.

(** [copy(dst, src)]: the first [min(len(dst), len(src))] elements of
    [src] overwrite the front of [dst]; that count is returned. *)
Definition copy {A : Type} (dst src : list A) : Z * list A :=
  let k := Nat.min (length dst) (length src) in
  (Z.of_nat k, take k src ++ drop k dst).

(** [make([]T, ln)] with the zero value [z]. *)
Definition make {A : Type} (z : A) (ln : Z) : result (list A) :=
  if ln <? 0 then Panic MakeLenOutOfRange
  else Ok (replicate (Z.to_nat ln) z).

(** Running a callee on the sub-slice [buf[n:]]: what it writes lands in
    [buf] from offset [n] on. *)
Definition within {A : Type} (buf : list Z) (n : Z)
    (f : list Z -> result (A * list Z)) : result (A * list Z) :=
  match slice_from buf n with
  | Ok tl =>
      match f tl with
      | Ok (a, tl') => Ok (a, take (Z.to_nat n) buf ++ tl')
      | Panic e => Panic e
      | OutOfFuel => OutOfFuel
      end
  | Panic e => Panic e
  | OutOfFuel => OutOfFuel
  end.

(** A [for] loop: [body] maps the loop state either to the next state
    ([inl]) or to the value the enclosing function returns ([inr]). *)
Fixpoint loop {S R : Type} (fuel : nat) (body : S -> result (S + R)) (s : S)
    : result R :=
  match fuel with
  | O => OutOfFuel
  | Datatypes.S fuel' =>
      match body s with
      | Ok (inl s') => loop fuel' body s'
      | Ok (inr r) => Ok r
      | Panic e => Panic e
      | OutOfFuel => OutOfFuel
      end
  end.

End Go.

Export Go.

Notation "x <- c1 ; c2" := (bind c1 (fun x => c2))
  (at level 20, c1 at level 100, c2 at level 200, only parsing).
Notation "' pat <- c1 ; c2" := (bind c1 (fun x => match x with pat => c2 end))
  (at level 20, pat pattern, c1 at level 100, c2 at level 200, only parsing).

(** ** encoding/binary: the big-endian byte order *)

Module BigEndian.

Definition PutUint16 (b : list Z) (v : Z) : result (list Z) :=
  _ <- load b 1 ;
  b <- store b 0 (uint8 (Z.shiftr v 8)) ;
  store b 1 (uint8 v).

Definition PutUint32 (b : list Z) (v : Z) : result (list Z) :=
  _ <- load b 3 ;
  b <- store b 0 (uint8 (Z.shiftr v 24)) ;
  b <- store b 1 (uint8 (Z.shiftr v 16)) ;
  b <- store b 2 (uint8 (Z.shiftr v 8)) ;
  store b 3 (uint8 v).

Definition PutUint64 (b : list Z) (v : Z) : result (list Z) :=
  _ <- load b 7 ;
  b <- store b 0 (uint8 (Z.shiftr v 56)) ;
  b <- store b 1 (uint8 (Z.shiftr v 48)) ;
  b <- store b 2 (uint8 (Z.shiftr v 40)) ;
  b <- store b 3 (uint8 (Z.shiftr v 32)) ;
  b <- store b 4 (uint8 (Z.shiftr v 24)) ;
  b <- store b 5 (uint8 (Z.shiftr v 16)) ;
  b <- store b 6 (uint8 (Z.shiftr v 8)) ;
  store b 7 (uint8 v).

Definition Uint16 (b : list Z) : result Z :=
  b1 <- load b 1 ;
  b0 <- load b 0 ;
  Ok (Z.lor b1 (Z.shiftl b0 8)).

Definition Uint32 (b : list Z) : result Z :=
  b3 <- load b 3 ;
  b2 <- load b 2 ;
  b1 <- load b 1 ;
  b0 <- load b 0 ;
  Ok (Z.lor (Z.lor (Z.lor b3 (Z.shiftl b2 8)) (Z.shiftl b1 16))
        (Z.shiftl b0 24)).

Definition Uint64 (b : list Z) : result Z :=
  b7 <- load b 7 ;
  b6 <- load b 6 ;
  b5 <- load b 5 ;
  b4 <- load b 4 ;
  b3 <- load b 3 ;
  b2 <- load b 2 ;
  b1 <- load b 1 ;
  b0 <- load b 0 ;
  Ok (Z.lor (Z.lor (Z.lor (Z.lor (Z.lor (Z.lor (Z.lor
        b7 (Z.shiftl b6 8)) (Z.shiftl b5 16)) (Z.shiftl b4 24))
        (Z.shiftl b3 32)) (Z.shiftl b2 40)) (Z.shiftl b1 48))
        (Z.shiftl b0 56)).

End BigEndian.

(** ** CBOR headers *)

(** major types *)
Definition type0 : Z := Z.shiftl 0 5.
Definition type1 : Z := Z.shiftl 1 5.
Definition type2 : Z := Z.shiftl 2 5.
Definition type3 : Z := Z.shiftl 3 5.
Definition type4 : Z := Z.shiftl 4 5.
Definition type5 : Z := Z.shiftl 5 5.
Definition type6 : Z := Z.shiftl 6 5.
Definition type7 : Z := Z.shiftl 7 5.

(** associated information for type0 and type1 *)
Definition info24 : Z := 24.
Definition info25 : Z := 25.
Definition info26 : Z := 26.
Definition info27 : Z := 27.
Definition indefiniteLength : Z := 31.

(** simple types for type7 *)
Definition simpleTypeFalse : Z := 20.
Definition simpleTypeTrue : Z := 21.
Definition simpleTypeNil : Z := 22.
Definition simpleUndefined : Z := 23.
Definition simpleTypeByte : Z := 24.
Definition flt16 : Z := 25.
Definition flt32 : Z := 26.
Definition flt64 : Z := 27.
Definition itemBreak : Z := 31.

Definition major (b : Z) : Z := Z.land b 224.
Definition info (b : Z) : Z := Z.land b 31.
Definition hdr (major info : Z) : Z := Z.lor (Z.land major 224) (Z.land info 31).

(** Modelled from the spec: the constant [MaxSmallInt], used by [encodeUint8]
    and [encodeInt8] and declared outside the two source files.  The spec
    gives the immediate values as info 0..23, and the source comments its
    use with the ranges 0..23 and 24..255. *)
Definition MaxSmallInt : Z := 23.

(** Modelled from the spec: the constant [brkstp], the break-stop byte read
    by [decode]; the spec gives it as 0xFF, which is [hdr type7 itemBreak],
    the value that [lookup] and [itemsEnd] bind to their local [brkstp]. *)
Definition brkstp : Z := 255.

(** Modelled from the spec: the constant [tagJsonString], the tag number that
    wraps one segment of a CBOR-encoded pointer; the spec gives it as 33. *)
Definition tagJsonString : Z := 33.

(** ** Values

    The dynamic values ([interface{}]) that [encode] switches on and that the
    decoders return.  A float is its IEEE 754 bit pattern, so that
    [math.Float32bits] and [math.Float32frombits] are the identity; a string
    is its bytes, so that [str2bytes] and [bytes2str] are the identity.  The
    Go types of the tagged data-items are one constructor, [VTagged]: their
    encoders and [decodeTag] are declared in other files of the package and
    enter the codec below as section variables. *)

Scheme All for list.
Scheme All for prod.

Inductive TaggedKind : Type :=
| TimeTime | Epoch | EpochMicro | BigInt | DecimalFraction | BigFloat
| Cbor | Regexp | CborPrefix.

Inductive Value : Type :=
| VNil
| VBool (b : bool)
| VInt8 (z : Z)
| VUint8 (z : Z)
| VInt16 (z : Z)
| VUint16 (z : Z)
| VInt32 (z : Z)
| VUint32 (z : Z)
| VInt (z : Z)
| VInt64 (z : Z)
| VUint (z : Z)
| VUint64 (z : Z)
| VFloat32 (bits : Z)
| VFloat64 (bits : Z)
| VBytes (s : list Z)
| VString (s : list Z)
| VArray (items : list Value)
| VMap (items : list (Value * Value))
| VUndefined (b : Z)
| VIndefinite (b : Z)
| VBreakStop (b : Z)
| VTagged (k : TaggedKind) (repr : list Z).

(** ** Encoders

    Every encoder takes the value and the output slice and returns the
    number of bytes written together with the slice as it has become. *)

Definition encodeNull (buf : list Z) : result (Z * list Z) :=
  buf <- store buf 0 (hdr type7 simpleTypeNil) ;
  Ok (1, buf).

Definition encodeTrue (buf : list Z) : result (Z * list Z) :=
  buf <- store buf 0 (hdr type7 simpleTypeTrue) ;
  Ok (1, buf).

Definition encodeFalse (buf : list Z) : result (Z * list Z) :=
  buf <- store buf 0 (hdr type7 simpleTypeFalse) ;
  Ok (1, buf).

Definition encodeUint8 (item : Z) (buf : list Z) : result (Z * list Z) :=
  if item <=? MaxSmallInt then
    buf <- store buf 0 (hdr type0 item) ;
    Ok (1, buf)
  else
    buf <- store buf 0 (hdr type0 info24) ;
    buf <- store buf 1 item ;
    Ok (2, buf).

Definition encodeInt8 (item : Z) (buf : list Z) : result (Z * list Z) :=
  if item >? MaxSmallInt then
    buf <- store buf 0 (hdr type0 info24) ;
    buf <- store buf 1 (uint8 item) ;
    Ok (2, buf)
  else if item <? - MaxSmallInt then
    buf <- store buf 0 (hdr type1 info24) ;
    buf <- store buf 1 (uint8 (int8 (- int8 (item + 1)))) ;
    Ok (2, buf)
  else if item <? 0 then
    buf <- store buf 0 (hdr type1 (uint8 (int8 (- int8 (item + 1))))) ;
    Ok (1, buf)
  else
    buf <- store buf 0 (hdr type0 (uint8 item)) ;
    Ok (1, buf).

Definition encodeUint16 (item : Z) (buf : list Z) : result (Z * list Z) :=
  if item <? 256 then encodeUint8 (uint8 item) buf
  else
    buf <- store buf 0 (hdr type0 info25) ;
    '(_, buf) <- within buf 1 (fun b => b <- BigEndian.PutUint16 b item ; Ok (tt, b)) ;
    Ok (3, buf).

Definition encodeInt16 (item : Z) (buf : list Z) : result (Z * list Z) :=
  if item >? 127 then
    if item <? 256 then
      buf <- store buf 0 (hdr type0 info24) ;
      buf <- store buf 1 (uint8 item) ;
      Ok (2, buf)
    else
      buf <- store buf 0 (hdr type0 info25) ;
      '(_, buf) <- within buf 1
        (fun b => b <- BigEndian.PutUint16 b (uint16 item) ; Ok (tt, b)) ;
      Ok (3, buf)
  else if item <? -128 then
    if item >? -256 then
      buf <- store buf 0 (hdr type1 info24) ;
      buf <- store buf 1 (uint8 (int16 (- int16 (item + 1)))) ;
      Ok (2, buf)
    else
      buf <- store buf 0 (hdr type1 info25) ;
      '(_, buf) <- within buf 1
        (fun b => b <- BigEndian.PutUint16 b (uint16 (int16 (- int16 (item + 1)))) ;
                  Ok (tt, b)) ;
      Ok (3, buf)
  else encodeInt8 (int8 item) buf.

Definition encodeUint32 (item : Z) (buf : list Z) : result (Z * list Z) :=
  if item <? 65536 then encodeUint16 (uint16 item) buf
  else
    buf <- store buf 0 (hdr type0 info26) ;
    '(_, buf) <- within buf 1 (fun b => b <- BigEndian.PutUint32 b item ; Ok (tt, b)) ;
    Ok (5, buf).

Definition encodeInt32 (item : Z) (buf : list Z) : result (Z * list Z) :=
  if item >? 32767 then
    if item <? 65536 then
      buf <- store buf 0 (hdr type0 info25) ;
      '(_, buf) <- within buf 1
        (fun b => b <- BigEndian.PutUint16 b (uint16 item) ; Ok (tt, b)) ;
      Ok (3, buf)
    else
      buf <- store buf 0 (hdr type0 info26) ;
      '(_, buf) <- within buf 1
        (fun b => b <- BigEndian.PutUint32 b (uint32 item) ; Ok (tt, b)) ;
      Ok (5, buf)
  else if item <? -32768 then
    if item >? -65536 then
      buf <- store buf 0 (hdr type1 info25) ;
      '(_, buf) <- within buf 1
        (fun b => b <- BigEndian.PutUint16 b (uint16 (int32 (- int32 (item + 1)))) ;
                  Ok (tt, b)) ;
      Ok (3, buf)
    else
      buf <- store buf 0 (hdr type1 info26) ;
      '(_, buf) <- within buf 1
        (fun b => b <- BigEndian.PutUint32 b (uint32 (int32 (- int32 (item + 1)))) ;
                  Ok (tt, b)) ;
      Ok (5, buf)
  else encodeInt16 (int16 item) buf.

Definition encodeUint64 (item : Z) (buf : list Z) : result (Z * list Z) :=
  if item <? 4294967296 then encodeUint32 (uint32 item) buf
  else
    buf <- store buf 0 (hdr type0 info27) ;
    '(_, buf) <- within buf 1 (fun b => b <- BigEndian.PutUint64 b item ; Ok (tt, b)) ;
    Ok (9, buf).

Definition encodeInt64 (item : Z) (buf : list Z) : result (Z * list Z) :=
  if item >? 2147483647 then
    if item <? 4294967296 then
      buf <- store buf 0 (hdr type0 info26) ;
      '(_, buf) <- within buf 1
        (fun b => b <- BigEndian.PutUint32 b (uint32 item) ; Ok (tt, b)) ;
      Ok (5, buf)
    else
      buf <- store buf 0 (hdr type0 info27) ;
      '(_, buf) <- within buf 1
        (fun b => b <- BigEndian.PutUint64 b (uint64 item) ; Ok (tt, b)) ;
      Ok (9, buf)
  else if item <? -2147483648 then
    if item >? -4294967296 then
      buf <- store buf 0 (hdr type1 info26) ;
      '(_, buf) <- within buf 1
        (fun b => b <- BigEndian.PutUint32 b (uint32 (int64 (- int64 (item + 1)))) ;
                  Ok (tt, b)) ;
      Ok (5, buf)
    else
      buf <- store buf 0 (hdr type1 info27) ;
      '(_, buf) <- within buf 1
        (fun b => b <- BigEndian.PutUint64 b (uint64 (int64 (- int64 (item + 1)))) ;
                  Ok (tt, b)) ;
      Ok (9, buf)
  else encodeInt32 (int32 item) buf.

Definition encodeFloat32 (item : Z) (buf : list Z) : result (Z * list Z) :=
  buf <- store buf 0 (hdr type7 flt32) ;
  '(_, buf) <- within buf 1 (fun b => b <- BigEndian.PutUint32 b item ; Ok (tt, b)) ;
  Ok (5, buf).

Definition encodeFloat64 (item : Z) (buf : list Z) : result (Z * list Z) :=
  buf <- store buf 0 (hdr type7 flt64) ;
  '(_, buf) <- within buf 1 (fun b => b <- BigEndian.PutUint64 b item ; Ok (tt, b)) ;
  Ok (9, buf).

Definition encodeBytes (item : list Z) (buf : list Z) : result (Z * list Z) :=
  '(n, buf) <- encodeUint64 (uint64 (len item)) buf ;
  b0 <- load buf 0 ;
  buf <- store buf 0 (Z.lor (Z.land b0 31) type2) ;
  '(_, buf) <- within buf n (fun b => Ok (copy b item)) ;
  Ok (n + len item, buf).

Definition encodeBytesStart (buf : list Z) : result (Z * list Z) :=
  buf <- store buf 0 (hdr type2 (uint8 indefiniteLength)) ;
  Ok (1, buf).

Definition encodeText (item : list Z) (buf : list Z) : result (Z * list Z) :=
  '(n, buf) <- encodeBytes item buf ;
  b0 <- load buf 0 ;
  buf <- store buf 0 (Z.lor (Z.land b0 31) type3) ;
  Ok (n, buf).

Definition encodeTextStart (buf : list Z) : result (Z * list Z) :=
  buf <- store buf 0 (hdr type3 (uint8 indefiniteLength)) ;
  Ok (1, buf).

Definition encodeArrayStart (buf : list Z) : result (Z * list Z) :=
  buf <- store buf 0 (hdr type4 (uint8 indefiniteLength)) ;
  Ok (1, buf).

Definition encodeMapStart (buf : list Z) : result (Z * list Z) :=
  buf <- store buf 0 (hdr type5 (uint8 indefiniteLength)) ;
  Ok (1, buf).

Definition encodeBreakStop (buf : list Z) : result (Z * list Z) :=
  buf <- store buf 0 (hdr type7 (uint8 itemBreak)) ;
  Ok (1, buf).

Definition encodeUndefined (buf : list Z) : result (Z * list Z) :=
  buf <- store buf 0 (hdr type7 simpleUndefined) ;
  Ok (1, buf).

Definition encodeSimpleType (typcode : Z) (buf : list Z) : result (Z * list Z) :=
  if typcode <? 32 then
    buf <- store buf 0 (hdr type7 typcode) ;
    Ok (1, buf)
  else
    buf <- store buf 0 (hdr type7 simpleTypeByte) ;
    buf <- store buf 1 typcode ;
    Ok (2, buf).

(** Modelled from the spec: [encodeTag], called by [FromJsonPointer] and
    declared in another file of the package.  The spec has the tag number
    "encoded like type-0" under major type 6, the write-as-type-0-then-retag
    structure of [encodeBytes]. *)
Definition encodeTag (tag : Z) (buf : list Z) : result (Z * list Z) :=
  '(n, buf) <- encodeUint64 tag buf ;
  b0 <- load buf 0 ;
  buf <- store buf 0 (Z.lor (Z.land b0 31) type6) ;
  Ok (n, buf).

Section Encode.

(** The encoders of the tagged data-items ([encodeDateTime],
    [encodeBigNum], [encodeDecimalFraction], [encodeBigFloat],
    [encodeCbor], [encodeRegexp], [encodeCborPrefix]). *)
Variable encodeTagged : TaggedKind -> list Z -> list Z -> result (Z * list Z).

Section Items.
Variable encode : Value -> list Z -> result (Z * list Z).

(** [for _, item := range items { n += encode(item, buf[n:]) }] *)
Fixpoint encodeArrayItems_from (items : list Value) (n : Z) (buf : list Z)
    : result (Z * list Z) :=
  match items with
  | [] => Ok (n, buf)
  | item :: items =>
      '(k, buf) <- within buf n (encode item) ;
      encodeArrayItems_from items (n + k) buf
  end.

Definition encodeArrayItems (items : list Value) (buf : list Z)
    : result (Z * list Z) :=
  encodeArrayItems_from items 0 buf.

Definition encodeArray (items : list Value) (buf : list Z)
    : result (Z * list Z) :=
  '(n, buf) <- encodeUint64 (uint64 (len items)) buf ;
  b0 <- load buf 0 ;
  buf <- store buf 0 (Z.lor (Z.land b0 31) type4) ;
  '(k, buf) <- within buf n (encodeArrayItems items) ;
  Ok (n + k, buf).

Fixpoint encodeMapItems_from (items : list (Value * Value)) (n : Z)
    (buf : list Z) : result (Z * list Z) :=
  match items with
  | [] => Ok (n, buf)
  | (key, value) :: items =>
      '(k, buf) <- within buf n (encode key) ;
      let n := n + k in
      '(k, buf) <- within buf n (encode value) ;
      encodeMapItems_from items (n + k) buf
  end.

Definition encodeMapItems (items : list (Value * Value)) (buf : list Z)
    : result (Z * list Z) :=
  encodeMapItems_from items 0 buf.

Definition encodeMap (items : list (Value * Value)) (buf : list Z)
    : result (Z * list Z) :=
  '(n, buf) <- encodeUint64 (uint64 (len items)) buf ;
  b0 <- load buf 0 ;
  buf <- store buf 0 (Z.lor (Z.land b0 31) type5) ;
  '(k, buf) <- within buf n (encodeMapItems items) ;
  Ok (n + k, buf).
End Items.

Fixpoint encode (item : Value) (out : list Z) {struct item}
    : result (Z * list Z) :=
  match item with
  | VNil => encodeNull out
  | VBool v => if v then encodeTrue out else encodeFalse out
  | VInt8 v => encodeInt8 v out
  | VUint8 v => encodeUint8 v out
  | VInt16 v => encodeInt16 v out
  | VUint16 v => encodeUint16 v out
  | VInt32 v => encodeInt32 v out
  | VUint32 v => encodeUint32 v out
  | VInt v => encodeInt64 (int64 v) out
  | VInt64 v => encodeInt64 v out
  | VUint v => encodeUint64 (uint64 v) out
  | VUint64 v => encodeUint64 v out
  | VFloat32 v => encodeFloat32 v out
  | VFloat64 v => encodeFloat64 v out
  | VBytes v => encodeBytes v out
  | VString v => encodeText v out
  | VArray v => encodeArray encode v out
  | VMap v => encodeMap encode v out
  | VUndefined _ => encodeUndefined out
  | VTagged k repr => encodeTagged k repr out
  | VIndefinite _ | VBreakStop _ => Panic ErrorUnknownType
  end.

End Encode.

(** ** Decoders

    Every decoder takes the input slice and returns the decoded value with
    the number of bytes it consumed. *)

Abbreviation decoder := (list Z -> result (Value * Z)).

Definition decodeNull : decoder := fun buf => Ok (VNil, 1).

Definition decodeFalse : decoder := fun buf => Ok (VBool false, 1).

Definition decodeTrue : decoder := fun buf => Ok (VBool true, 1).

Definition decodeSimpleTypeByte : decoder := fun buf =>
  b1 <- load buf 1 ;
  Ok (VUint8 b1, 2).

Definition decodeFloat16 : decoder := fun buf => Panic ErrorDecodeFloat16.

Definition decodeFloat32 : decoder := fun buf =>
  tl <- slice_from buf 1 ;
  item <- BigEndian.Uint32 tl ;
  Ok (VFloat32 item, 5).

Definition decodeFloat64 : decoder := fun buf =>
  tl <- slice_from buf 1 ;
  item <- BigEndian.Uint64 tl ;
  Ok (VFloat64 item, 9).

Definition decodeType0SmallInt : decoder := fun buf =>
  b0 <- load buf 0 ;
  Ok (VUint64 (uint64 (info b0)), 1).

Definition decodeType1SmallInt : decoder := fun buf =>
  b0 <- load buf 0 ;
  Ok (VInt64 (int64 (- int64 (uint8 (info b0 + 1)))), 1).

Definition decodeType0Info24 : decoder := fun buf =>
  b1 <- load buf 1 ;
  Ok (VUint64 (uint64 b1), 2).

Definition decodeType1Info24 : decoder := fun buf =>
  b1 <- load buf 1 ;
  Ok (VInt64 (int64 (- int64 (uint8 (b1 + 1)))), 2).

Definition decodeType0Info25 : decoder := fun buf =>
  tl <- slice_from buf 1 ;
  x <- BigEndian.Uint16 tl ;
  Ok (VUint64 (uint64 x), 3).

Definition decodeType1Info25 : decoder := fun buf =>
  tl <- slice_from buf 1 ;
  x <- BigEndian.Uint16 tl ;
  Ok (VInt64 (int64 (- int64 (uint16 (x + 1)))), 3).

Definition decodeType0Info26 : decoder := fun buf =>
  tl <- slice_from buf 1 ;
  x <- BigEndian.Uint32 tl ;
  Ok (VUint64 (uint64 x), 5).

Definition decodeType1Info26 : decoder := fun buf =>
  tl <- slice_from buf 1 ;
  x <- BigEndian.Uint32 tl ;
  Ok (VInt64 (int64 (- int64 (uint32 (x + 1)))), 5).

Definition decodeType0Info27 : decoder := fun buf =>
  tl <- slice_from buf 1 ;
  x <- BigEndian.Uint64 tl ;
  Ok (VUint64 (uint64 x), 9).

Definition decodeType1Info27 : decoder := fun buf =>
  tl <- slice_from buf 1 ;
  x <- BigEndian.Uint64 tl ;
  let x := uint64 x in
  if x >? 9223372036854775807 then Panic ErrorDecodeExceedInt64
  else Ok (VInt64 (int64 (int64 (uint64 (- x)) - 1)), 9).

Definition decodeLength (buf : list Z) : result (Z * Z) :=
  b0 <- load buf 0 ;
  let y := info b0 in
  if y <? info24 then Ok (int64 y, 1)
  else if y =? info24 then
    b1 <- load buf 1 ;
    Ok (int64 b1, 2)
  else if y =? info25 then
    tl <- slice_from buf 1 ;
    x <- BigEndian.Uint16 tl ;
    Ok (int64 x, 3)
  else if y =? info26 then
    tl <- slice_from buf 1 ;
    x <- BigEndian.Uint32 tl ;
    Ok (int64 x, 5)
  else
    tl <- slice_from buf 1 ;
    x <- BigEndian.Uint64 tl ;
    Ok (int64 x, 9).

Definition decodeType2 : decoder := fun buf =>
  '(ln, n) <- decodeLength buf ;
  dst <- make 0 ln ;
  src <- slice buf n (add n ln) ;
  let '(_, dst) := copy dst src in
  Ok (VBytes dst, add n ln).

Definition decodeType2Indefinite : decoder := fun buf =>
  b0 <- load buf 0 ;
  Ok (VIndefinite b0, 1).

Definition decodeType3 : decoder := fun buf =>
  '(ln, n) <- decodeLength buf ;
  dst <- make 0 ln ;
  src <- slice buf n (add n ln) ;
  let '(_, dst) := copy dst src in
  Ok (VString dst, add n ln).

Definition decodeType3Indefinite : decoder := fun buf =>
  b0 <- load buf 0 ;
  Ok (VIndefinite b0, 1).

Definition decodeType4Indefinite : decoder := fun buf =>
  b0 <- load buf 0 ;
  Ok (VIndefinite b0, 1).

Definition decodeType5Indefinite : decoder := fun buf =>
  b0 <- load buf 0 ;
  Ok (VIndefinite b0, 1).

Definition decodeBreakCode : decoder := fun buf =>
  b0 <- load buf 0 ;
  Ok (VBreakStop b0, 1).

Definition decodeUndefined : decoder := fun buf =>
  Ok (VUndefined simpleUndefined, 1).

Definition makePanic (msg : error) : decoder := fun _ => Panic msg.

Section Decode.

(** [decodeTag], the handler of the major type 6 headers, declared in
    another file of the package; it is given the decoder it calls for the
    tagged content. *)
Variable decodeTag : decoder -> decoder.

Section Table.
(** [decode], as the handlers of the containers call it. *)
Variable decode : decoder.
Variable fuel : nat.

(** One turn of [for i := 0; i < ln; i++] in [decodeType4]. *)
Definition decodeType4_step (buf : list Z) (ln : Z) (s : Z * Z * list Value)
    : result ((Z * Z * list Value) + (Value * Z)) :=
  let '(i, n, arr) := s in
  if i <? ln then
    tl <- slice_from buf n ;
    '(item, n1) <- decode tl ;
    arr <- store arr i item ;
    Ok (inl (i + 1, add n n1, arr))
  else Ok (inr (VArray arr, n)).

Definition decodeType4 : decoder := fun buf =>
  '(ln, n) <- decodeLength buf ;
  arr <- make VNil ln ;
  loop fuel (decodeType4_step buf ln) (0, n, arr).

(** One turn of the loop of [decodeType5]. *)
Definition decodeType5_step (buf : list Z) (ln : Z)
    (s : Z * Z * list (Value * Value))
    : result ((Z * Z * list (Value * Value)) + (Value * Z)) :=
  let '(i, n, pairs) := s in
  if i <? ln then
    tl <- slice_from buf n ;
    '(key, n1) <- decode tl ;
    tl <- slice_from buf (add n n1) ;
    '(value, n2) <- decode tl ;
    pairs <- store pairs i (key, value) ;
    Ok (inl (i + 1, add (add n n1) n2, pairs))
  else Ok (inr (VMap pairs, n)).

Definition decodeType5 : decoder := fun buf =>
  '(ln, n) <- decodeLength buf ;
  pairs <- make (VNil, VNil) ln ;
  loop fuel (decodeType5_step buf ln) (0, n, pairs).

(** The table that [init] fills, one assignment after the other. *)
Definition assign_range (lo hi : Z) (major : Z) (d : decoder)
    (m : gmap Z decoder) : gmap Z decoder :=
  foldl (fun m i => <[hdr major i := d]> m) m (seqZ lo (hi - lo)).

Definition cborDecoders : gmap Z decoder :=
  let m : gmap Z decoder := ∅ in
  (* type0 (unsigned integer) *)
  let m := assign_range 0 info24 type0 decodeType0SmallInt m in
  let m := <[hdr type0 info24 := decodeType0Info24]> m in
  let m := <[hdr type0 info25 := decodeType0Info25]> m in
  let m := <[hdr type0 info26 := decodeType0Info26]> m in
  let m := <[hdr type0 info27 := decodeType0Info27]> m in
  let m := <[hdr type0 28 := makePanic ErrorDecodeInfoReserved]> m in
  let m := <[hdr type0 29 := makePanic ErrorDecodeInfoReserved]> m in
  let m := <[hdr type0 30 := makePanic ErrorDecodeInfoReserved]> m in
  let m := <[hdr type0 indefiniteLength := makePanic ErrorDecodeIndefinite]> m in
  (* type1 (signed integer) *)
  let m := assign_range 0 info24 type1 decodeType1SmallInt m in
  let m := <[hdr type1 info24 := decodeType1Info24]> m in
  let m := <[hdr type1 info25 := decodeType1Info25]> m in
  let m := <[hdr type1 info26 := decodeType1Info26]> m in
  let m := <[hdr type1 info27 := decodeType1Info27]> m in
  let m := <[hdr type1 28 := makePanic ErrorDecodeInfoReserved]> m in
  let m := <[hdr type1 29 := makePanic ErrorDecodeInfoReserved]> m in
  let m := <[hdr type1 30 := makePanic ErrorDecodeInfoReserved]> m in
  let m := <[hdr type1 indefiniteLength := makePanic ErrorDecodeIndefinite]> m in
  (* type2 (byte string) *)
  let m := assign_range 0 28 type2 decodeType2 m in
  let m := <[hdr type2 28 := makePanic ErrorDecodeInfoReserved]> m in
  let m := <[hdr type2 29 := makePanic ErrorDecodeInfoReserved]> m in
  let m := <[hdr type2 30 := makePanic ErrorDecodeInfoReserved]> m in
  let m := <[hdr type2 indefiniteLength := decodeType2Indefinite]> m in
  (* type3 (string) *)
  let m := assign_range 0 28 type3 decodeType3 m in
  let m := <[hdr type3 28 := makePanic ErrorDecodeInfoReserved]> m in
  let m := <[hdr type3 29 := makePanic ErrorDecodeInfoReserved]> m in
  let m := <[hdr type3 30 := makePanic ErrorDecodeInfoReserved]> m in
  let m := <[hdr type3 indefiniteLength := decodeType3Indefinite]> m in
  (* type4 (array) *)
  let m := assign_range 0 28 type4 decodeType4 m in
  let m := <[hdr type4 28 := makePanic ErrorDecodeInfoReserved]> m in
  let m := <[hdr type4 29 := makePanic ErrorDecodeInfoReserved]> m in
  let m := <[hdr type4 30 := makePanic ErrorDecodeInfoReserved]> m in
  let m := <[hdr type4 indefiniteLength := decodeType4Indefinite]> m in
  (* type5 (map) *)
  let m := assign_range 0 28 type5 decodeType5 m in
  let m := <[hdr type5 28 := makePanic ErrorDecodeInfoReserved]> m in
  let m := <[hdr type5 29 := makePanic ErrorDecodeInfoReserved]> m in
  let m := <[hdr type5 30 := makePanic ErrorDecodeInfoReserved]> m in
  let m := <[hdr type5 indefiniteLength := decodeType5Indefinite]> m in
  (* type6 *)
  let m := assign_range 0 info24 type6 (decodeTag decode) m in
  let m := <[hdr type6 info24 := decodeTag decode]> m in
  let m := <[hdr type6 info25 := decodeTag decode]> m in
  let m := <[hdr type6 info26 := decodeTag decode]> m in
  let m := <[hdr type6 info27 := decodeTag decode]> m in
  let m := <[hdr type6 28 := makePanic ErrorDecodeInfoReserved]> m in
  let m := <[hdr type6 29 := makePanic ErrorDecodeInfoReserved]> m in
  let m := <[hdr type6 30 := makePanic ErrorDecodeInfoReserved]> m in
  let m := <[hdr type6 indefiniteLength := makePanic ErrorDecodeIndefinite]> m in
  (* type7 (simple types / floats / break-stop) *)
  let m := foldl (fun m i => <[hdr type7 i := (fun buf => Ok (VUint8 i, 1)) : decoder]> m)
             m (seqZ 0 20) in
  let m := <[hdr type7 simpleTypeFalse := decodeFalse]> m in
  let m := <[hdr type7 simpleTypeTrue := decodeTrue]> m in
  let m := <[hdr type7 simpleTypeNil := decodeNull]> m in
  let m := <[hdr type7 simpleUndefined := decodeUndefined]> m in
  let m := <[hdr type7 simpleTypeByte := decodeSimpleTypeByte]> m in
  let m := <[hdr type7 flt16 := decodeFloat16]> m in
  let m := <[hdr type7 flt32 := decodeFloat32]> m in
  let m := <[hdr type7 flt64 := decodeFloat64]> m in
  let m := <[hdr type7 28 := makePanic ErrorDecodeSimpleType]> m in
  let m := <[hdr type7 29 := makePanic ErrorDecodeSimpleType]> m in
  let m := <[hdr type7 30 := makePanic ErrorDecodeSimpleType]> m in
  let m := <[hdr type7 itemBreak := decodeBreakCode]> m in
  m.

(** One turn of [for buf[n] != brkstp] over the items of an indefinite
    array, and over the pairs of an indefinite map. *)
Definition decode_array_step (buf : list Z) (s : Z * list Value)
    : result ((Z * list Value) + (Value * Z)) :=
  let '(n, arr) := s in
  bn <- load buf n ;
  if negb (bn =? brkstp) then
    tl <- slice_from buf n ;
    '(item, n1) <- decode tl ;
    Ok (inl (add n n1, arr ++ [item]))
  else Ok (inr (VArray arr, n + 1)).

Definition decode_map_step (buf : list Z) (s : Z * list (Value * Value))
    : result ((Z * list (Value * Value)) + (Value * Z)) :=
  let '(n, pairs) := s in
  bn <- load buf n ;
  if negb (bn =? brkstp) then
    tl <- slice_from buf n ;
    '(key, n1) <- decode tl ;
    tl <- slice_from buf (add n n1) ;
    '(value, n2) <- decode tl ;
    Ok (inl (add (add n n1) n2, pairs ++ [(key, value)]))
  else Ok (inr (VMap pairs, n + 1)).

(** The body of [decode]; a header byte without an entry in the table
    would call a nil function. *)
Definition decode_body : decoder := fun buf =>
  b0 <- load buf 0 ;
  match cborDecoders !! b0 with
  | None => Panic NilDereference
  | Some handler =>
      '(item, n) <- handler buf ;
      match item with
      | VIndefinite _ =>
          if major b0 =? type4 then loop fuel (decode_array_step buf) (n, [])
          else if major b0 =? type5 then loop fuel (decode_map_step buf) (n, [])
          else Ok (item, n)
      | _ => Ok (item, n)
      end
  end.
End Table.

(** [decode] with its recursion depth and the length of its loops bounded
    by [fuel]. *)
Fixpoint decode_rec (fuel : nat) : decoder :=
  match fuel with
  | O => fun _ => OutOfFuel
  | S fuel' => decode_body (decode_rec fuel') fuel'
  end.

(** [decode], run on one unit of fuel more than the input has bytes: a
    data-item nests no deeper and holds no more items than it has
    bytes. *)
Definition decode : decoder := fun buf => decode_rec (S (length buf)) buf.

End Decode.

(** ** JSON pointers in CBOR

    The text form is RFC 6901; the CBOR form is a text-chunk-start byte,
    one [tagJsonString] tag with a definite text string per segment, and a
    break-stop. *)

Module Char.
Definition slash : Z := 47.   (* '/' *)
Definition tilde : Z := 126.  (* '~' *)
Definition zero : Z := 48.    (* '0' *)
Definition one : Z := 49.     (* '1' *)
Definition minus : Z := 45.   (* '-' *)
Definition plus : Z := 43.    (* '+' *)
End Char.

Definition maxPartSize : Z := 1024.

(** Modelled from the spec: [IsIndefiniteText], declared in another file of
    the package; the spec has the two pointer functions "assert the first
    header is indefinite text", the header [type3|31]. *)
Definition IsIndefiniteText (b : Z) : bool :=
  b =? hdr type3 (uint8 indefiniteLength).

(** [strconv.Atoi] of the Go library, on the bytes of the string: an
    optional sign, then one decimal digit or more, and a value that fits an
    [int]; [None] is its error. *)
Fixpoint digits (acc : Z) (s : list Z) : option Z :=
  match s with
  | [] => Some acc
  | ch :: s =>
      let ch := uint8 (ch - Char.zero) in
      if ch >? 9 then None else digits (acc * 10 + ch) s
  end.

Definition Atoi (s : list Z) : option Z :=
  let '(neg, body) :=
    match s with
    | c :: s' =>
        if c =? Char.minus then (true, s')
        else if c =? Char.plus then (false, s')
        else (false, s)
    | [] => (false, s)
    end in
  match body with
  | [] => None
  | _ =>
      match digits 0 body with
      | Some n =>
          let n := if neg then - n else n in
          if (- 2 ^ 63 <=? n) && (n <? 2 ^ 63) then Some n else None
      | None => None
      end
  end.

(** The state of the loop of [FromJsonPointer]: the index [i] into the
    path, the fill [off] of the scratch array [part], the bytes [n] written
    to [out], and the two arrays. *)
Definition FromJsonPointer_step (path : list Z)
    (s : Z * Z * Z * list Z * list Z)
    : result ((Z * Z * Z * list Z * list Z) + (Z * Z * list Z * list Z)) :=
  let '(i, off, n, part, out) := s in
  if i <? len path then
    c <- load path i ;
    if c =? Char.tilde then
      c1 <- load path (i + 1) ;
      if c1 =? Char.one then
        part <- store part off Char.slash ;
        Ok (inl (i + 2, off + 1, n, part, out))
      else if c1 =? Char.zero then
        part <- store part off Char.tilde ;
        Ok (inl (i + 2, off + 1, n, part, out))
      else Ok (inl (i, off, n, part, out))
    else if c =? Char.slash then
      if off >? 0 then
        '(k, out) <- within out n (encodeTag (uint64 tagJsonString)) ;
        let n := n + k in
        seg <- slice_to part off ;
        '(k, out) <- within out n (encodeText seg) ;
        let n := n + k in
        Ok (inl (i + 1, 0, n, part, out))
      else Ok (inl (i + 1, off, n, part, out))
    else
      part <- store part off c ;
      Ok (inl (i + 1, off + 1, n, part, out))
  else Ok (inr (off, n, part, out)).

Definition FromJsonPointer (fuel : nat) (path out : list Z)
    : result (Z * list Z) :=
  let part := replicate (Z.to_nat maxPartSize) 0 in
  _ <- (if 0 <? len path then
          p0 <- load path 0 ;
          if negb (p0 =? Char.slash) then Panic ErrorExpectedJsonPointer
          else Ok tt
        else Ok tt) ;
  '(n, out) <- encodeTextStart out ;
  '(off, n, part, out) <- loop fuel (FromJsonPointer_step path) (0, 0, n, part, out) ;
  last_is_slash <- (if 0 <? len path then
                      c <- load path (len path - 1) ;
                      Ok (c =? Char.slash)
                    else Ok false) ;
  '(n, out) <- (if (off >? 0) || last_is_slash then
                  '(k, out) <- within out n (encodeTag (uint64 tagJsonString)) ;
                  let n := n + k in
                  seg <- slice_to part off ;
                  '(k, out) <- within out n (encodeText seg) ;
                  Ok (n + k, out)
                else Ok (n, out)) ;
  '(k, out) <- within out n encodeBreakStop ;
  Ok (n + k, out).

(** The inner loop of [ToJsonPointer]: the bytes of one segment, escaped. *)
Definition ToJsonPointer_segment (bin : list Z) (ln : Z) (s : Z * Z * list Z)
    : result ((Z * Z * list Z) + (Z * Z * list Z)) :=
  let '(i, n, out) := s in
  if i <? ln then
    c <- load bin i ;
    '(n, out) <-
      (if c =? Char.slash then
         out <- store out n Char.tilde ;
         out <- store out (n + 1) Char.one ;
         Ok (n + 2, out)
       else if c =? Char.tilde then
         out <- store out n Char.tilde ;
         out <- store out (n + 1) Char.zero ;
         Ok (n + 2, out)
       else
         out <- store out n c ;
         Ok (n + 1, out)) ;
    Ok (inl (i + 1, n, out))
  else Ok (inr (i, n, out)).

Definition ToJsonPointer_step (fuel : nat) (bin : list Z) (s : Z * Z * list Z)
    : result ((Z * Z * list Z) + (Z * list Z)) :=
  let '(i, n, out) := s in
  let brkstp := hdr type7 itemBreak in
  bi <- load bin i ;
  is_segment <- (if bi =? hdr type6 info24 then
                   bi1 <- load bin (i + 1) ;
                   Ok (bi1 =? tagJsonString)
                 else Ok false) ;
  '(i, n, out) <-
    (if is_segment : bool then
       out <- store out n Char.slash ;
       let i := i + 2 in
       let n := n + 1 in
       tl <- slice_from bin i ;
       '(ln, j) <- decodeLength tl ;
       let '(ln, i) := (add (add ln i) j, i + j) in
       loop fuel (ToJsonPointer_segment bin ln) (i, n, out)
     else Ok (i, n, out)) ;
  bi <- load bin i ;
  if bi =? brkstp then Ok (inr (n, out))
  else Ok (inl (i, n, out)).

Definition ToJsonPointer (fuel : nat) (bin out : list Z) : result (Z * list Z) :=
  b0 <- load bin 0 ;
  if negb (IsIndefiniteText b0) then Panic ErrorExpectedCborPointer
  else loop fuel (ToJsonPointer_step fuel bin) (1, 0, out).

(** *** The structural walker *)

Section Walker.

Variable fuel : nat.
(** [itemsEnd], as [arrayIndex], [mapIndex] and [itemsEnd] itself call it. *)
Variable itemsEnd : list Z -> result Z.

Definition arrayIndex_body (arr : list Z) (index : Z) : result Z :=
  let brkstp := hdr type7 itemBreak in
  loop fuel
    (fun '(count, n) =>
       if (index >? 0) && (count <? index) then
         tl <- slice_from arr n ;
         m <- itemsEnd tl ;
         at_end <- (if index =? -1 then
                      am <- load arr m ;
                      Ok (am =? brkstp)
                    else Ok false) ;
         if at_end : bool then Ok (inr n)
         else Ok (inl (count + 1, add n m))
       else Ok (inr n))
    (0, 0).

Definition mapIndex_body (buf part : list Z) : result Z :=
  let brkstp := hdr type7 itemBreak in
  loop fuel
    (fun n =>
       if n <? len buf then
         bn <- load buf n ;
         if bn =? brkstp then Panic ErrorNoKey
         else
           tl <- slice_from buf n ;
           m <- itemsEnd tl ;
           key <- slice buf n m ;
           if bool_decide (part = key) then Ok (inr n)
           else
             tl <- slice_from buf (add n m) ;
             p <- itemsEnd tl ;
             Ok (inl (add n (add m p)))
       else Panic ErrorMalformedDocument)
    0.

Definition itemsEnd_body (buf : list Z) : result Z :=
  let brkstp := hdr type7 itemBreak in
  b0 <- load buf 0 ;
  let '(mjr, inf) := (major b0, info b0) in
  if (mjr =? type0) || (mjr =? type1) then
    if inf <? info24 then Ok 1
    else Ok (int64 (Z.shiftl 1 (uint8 (inf - info24)) + 1))
  else if mjr =? type3 then
    '(ln, j) <- decodeLength buf ;
    Ok (add j ln)
  else if (mjr =? type4) && (info b0 =? indefiniteLength) then
    let n := 1 in
    tl <- slice_from buf n ;
    k <- arrayIndex_body tl (-1) ;
    let n := add n k in
    tl <- slice_from buf n ;
    e <- itemsEnd tl ;
    Ok (add (add n e) 1)
  else if (mjr =? type5) && (info b0 =? indefiniteLength) then
    r <- loop fuel
      (fun n =>
         if n <? len buf then
           bn <- load buf n ;
           if bn =? brkstp then Ok (inr (Some (n + 1)))
           else
             tl <- slice_from buf n ;
             k <- itemsEnd tl ;
             let n := add n k in
             tl <- slice_from buf n ;
             v <- itemsEnd tl ;
             Ok (inl (add n v))
         else Ok (inr None))
      1 ;
    match r with
    | Some n => Ok n
    | None => Panic ErrorInvalidDocument
    end
  else if mjr =? type7 then
    if (inf =? simpleTypeNil) || (inf =? simpleTypeFalse) || (inf =? simpleTypeTrue)
    then Ok 1
    else if inf =? flt32 then Ok (1 + 4)
    else if inf =? flt64 then Ok (1 + 8)
    else Panic ErrorInvalidDocument
  else
    is_segment <- (if mjr =? type6 then
                     b1 <- load buf 1 ;
                     if b1 =? tagJsonString then
                       b2 <- load buf 2 ;
                       Ok (major b2 =? type3)
                     else Ok false
                   else Ok false) ;
    if is_segment : bool then
      tl <- slice_from buf 2 ;
      '(ln, j) <- decodeLength tl ;
      Ok (add (add 2 j) ln)
    else Panic ErrorInvalidDocument.

End Walker.

Fixpoint itemsEnd (fuel : nat) (buf : list Z) : result Z :=
  match fuel with
  | O => OutOfFuel
  | S fuel' => itemsEnd_body fuel' (itemsEnd fuel') buf
  end.

Definition arrayIndex (fuel : nat) (arr : list Z) (index : Z) : result Z :=
  arrayIndex_body fuel (itemsEnd fuel) arr index.

Definition mapIndex (fuel : nat) (buf part : list Z) : result Z :=
  mapIndex_body fuel (itemsEnd fuel) buf part.

Definition partial (fuel : nat) (part doc : list Z) : result (Z * Z) :=
  d0 <- load doc 0 ;
  if d0 =? hdr type4 (uint8 indefiniteLength) then
    p0 <- load part 0 ;
    index <- (if p0 =? Char.minus then Ok (-1)
              else match Atoi part with
                   | Some index => Ok index
                   | None => Panic ErrorInvalidArrayOffset
                   end) ;
    tl <- slice_from doc 1 ;
    n <- arrayIndex fuel tl index ;
    tl <- slice_from doc n ;
    m <- itemsEnd fuel tl ;
    Ok (n, add n m)
  else if d0 =? hdr type5 (uint8 indefiniteLength) then
    tl <- slice_from doc 1 ;
    n <- mapIndex fuel tl part ;
    tl <- slice_from doc n ;
    m <- itemsEnd fuel tl ;
    tl <- slice_from doc (add n m) ;
    p <- itemsEnd fuel tl ;
    Ok (add n m, add (add n m) p)
  else Panic ErrorInvalidPointer.

Definition lookup (fuel : nat) (pointer doc : list Z) : result (Z * Z) :=
  p0 <- load pointer 0 ;
  if negb (IsIndefiniteText p0) then Panic ErrorExpectedCborPointer
  else
    let brkstp := hdr type7 itemBreak in
    let '(n, m) := (0, len doc) in
    p1 <- load pointer 1 ;
    if p1 =? brkstp then Ok (n, m)
    else
      loop fuel
        (fun '(i, n, m, doc) =>
           continue <- (if i <? len pointer then
                          pi <- load pointer i ;
                          Ok (negb (pi =? brkstp))
                        else Ok false) ;
           if continue : bool then
             doc <- slice doc n m ;
             pi <- load pointer i ;
             is_segment <- (if pi =? hdr type6 info24 then
                              pi1 <- load pointer (i + 1) ;
                              Ok (pi1 =? tagJsonString)
                            else Ok false) ;
             if is_segment : bool then
               let i := i + 2 in
               tl <- slice_from pointer i ;
               '(ln, j) <- decodeLength tl ;
               part <- slice pointer (add i j) (add (add i j) ln) ;
               '(n, m) <- partial fuel part doc ;
               Ok (inl (add i (add j ln), n, m, doc))
             else Panic ErrorInvalidPointer
           else Ok (inr (n, m)))
        (1, n, m, doc).

Definition get (fuel : nat) (doc pointer : list Z) : result (list Z) :=
  '(n, m) <- lookup fuel pointer doc ;
  slice doc n m.

Definition set (fuel : nat) (doc pointer item out : list Z) : result (list Z) :=
  '(n, m) <- lookup fuel pointer doc ;
  front <- slice_to doc n ;
  let '(_, out) := copy out front in
  let '(_, out) := copy out item in
  back <- slice_from doc m ;
  let '(_, out) := copy out back in
  Ok out.

Definition del (fuel : nat) (doc pointer out : list Z) : result (list Z) :=
  '(n, m) <- lookup fuel pointer doc ;
  front <- slice_to doc n ;
  let '(_, out) := copy out front in
  back <- slice_from doc m ;
  let '(_, out) := copy out back in
  Ok out.

(** ** The specification's side

    What the specification says the codec computes, written as pure
    functions on lists of bytes, to be compared with the code above. *)

Definition major_types : list Z :=
  [type0; type1; type2; type3; type4; type5; type6; type7].

(** The width of the encoding of a non-negative integer: 1 for n < 24, 2 for
    n < 2^8, 3 for n < 2^16, 5 for n < 2^32, and 9 otherwise. *)
Definition width (n : Z) : Z :=
  if n <? 24 then 1
  else if n <? 2 ^ 8 then 2
  else if n <? 2 ^ 16 then 3
  else if n <? 2 ^ 32 then 5
  else 9.

(** The [k] low bytes of [v], most significant first. *)
Fixpoint big_endian (k : nat) (v : Z) : list Z :=
  match k with
  | O => []
  | S k' => (v / 256 ^ Z.of_nat k') mod 256 :: big_endian k' v
  end.

(** The header of minimal width that carries the argument [n] under the
    major type [mt]: the header byte, then the payload if [n] is not an
    immediate value. *)
Definition head (mt n : Z) : list Z :=
  if n <? 24 then [mt + n]
  else if n <? 2 ^ 8 then (mt + info24) :: big_endian 1 n
  else if n <? 2 ^ 16 then (mt + info25) :: big_endian 2 n
  else if n <? 2 ^ 32 then (mt + info26) :: big_endian 4 n
  else (mt + info27) :: big_endian 8 n.

(** Writing [bytes] over the front of the slice [out]. *)
Definition overwrite (bytes out : list Z) : list Z :=
  bytes ++ drop (length bytes) out.

Definition in_range (lo hi z : Z) : bool := (lo <=? z) && (z <? hi).

Definition is_byte (z : Z) : bool := in_range 0 256 z.

(** The bytes that the signed encoders write for a negative [z]: the
    payload [-(z + 1)] under major type 1, in the width that the cascade
    [encodeInt64], [encodeInt32], [encodeInt16], [encodeInt8] selects. *)
Definition neg_head (z : Z) : list Z :=
  let p := - (z + 1) in
  if z >=? -23 then [type1 + p]
  else if z >? -256 then (type1 + info24) :: big_endian 1 p
  else if z >? -65536 then (type1 + info25) :: big_endian 2 p
  else if z >? -4294967296 then (type1 + info26) :: big_endian 4 p
  else (type1 + info27) :: big_endian 8 p.

Definition int_bytes (z : Z) : list Z :=
  if z <? 0 then neg_head z else head type0 z.

(** The greatest argument, plus one, that a header of total width [w]
    carries. *)
Definition capacity (w : Z) : Z :=
  if w =? 1 then 24
  else if w =? 2 then 2 ^ 8
  else if w =? 3 then 2 ^ 16
  else if w =? 5 then 2 ^ 32
  else 2 ^ 64.

(** The codec of a build without the tagged data-items: the value given to
    the section variables when a property is run on an example. *)
Definition untagged_encoder : TaggedKind -> list Z -> list Z -> result (Z * list Z) :=
  fun _ _ _ => Panic ErrorUnknownType.

Definition untagged_decoder : decoder -> decoder :=
  fun _ _ => Panic ErrorUnknownType.

(** The Go types of the signed integers that [encode] accepts. *)
Definition signed_kinds : list (Z -> Value) := [VInt8; VInt16; VInt32; VInt; VInt64].

(** The values that the package documents as supported: nil, the booleans,
    the integers of every width, the two floats, byte slices, strings,
    slices of values, slices of key-value pairs, and [Undefined]; every
    number within the range of its type, and every length within that of an
    [int]. *)
Fixpoint supported (v : Value) : bool :=
  match v with
  | VNil | VBool _ | VUndefined _ => true
  | VInt8 z => in_range (- 2 ^ 7) (2 ^ 7) z
  | VUint8 z => in_range 0 (2 ^ 8) z
  | VInt16 z => in_range (- 2 ^ 15) (2 ^ 15) z
  | VUint16 z => in_range 0 (2 ^ 16) z
  | VInt32 z => in_range (- 2 ^ 31) (2 ^ 31) z
  | VUint32 z => in_range 0 (2 ^ 32) z
  | VInt z | VInt64 z => in_range (- 2 ^ 63) (2 ^ 63) z
  | VUint z | VUint64 z => in_range 0 (2 ^ 64) z
  | VFloat32 bits => in_range 0 (2 ^ 32) bits
  | VFloat64 bits => in_range 0 (2 ^ 64) bits
  | VBytes s | VString s => forallb is_byte s && (len s <? 2 ^ 63)
  | VArray items => forallb supported items && (len items <? 2 ^ 63)
  | VMap items =>
      forallb (fun kv => supported (fst kv) && supported (snd kv)) items
      && (len items <? 2 ^ 63)
  | VIndefinite _ | VBreakStop _ | VTagged _ _ => false
  end.

(** The bytes of the encoding of a supported value. *)
Fixpoint encoding (v : Value) : list Z :=
  match v with
  | VNil => [type7 + simpleTypeNil]
  | VBool true => [type7 + simpleTypeTrue]
  | VBool false => [type7 + simpleTypeFalse]
  | VUndefined _ => [type7 + simpleUndefined]
  | VInt8 z | VInt16 z | VInt32 z | VInt z | VInt64 z => int_bytes z
  | VUint8 z | VUint16 z | VUint32 z | VUint z | VUint64 z => head type0 z
  | VFloat32 bits => (type7 + flt32) :: big_endian 4 bits
  | VFloat64 bits => (type7 + flt64) :: big_endian 8 bits
  | VBytes s => head type2 (len s) ++ s
  | VString s => head type3 (len s) ++ s
  | VArray items => head type4 (len items) ++ flat_map encoding items
  | VMap items =>
      head type5 (len items)
      ++ flat_map (fun kv => encoding (fst kv) ++ encoding (snd kv)) items
  | VIndefinite _ | VBreakStop _ | VTagged _ _ => []
  end.

(** The value that comes back from the bytes of a value: an integer comes
    back as [uint64] if it is not negative and as [int64] if it is, whatever
    its type was; [Undefined] comes back with the code of the simple type;
    everything else comes back as it was, item by item. *)
Fixpoint canon (v : Value) : Value :=
  match v with
  | VInt8 z | VInt16 z | VInt32 z | VInt z | VInt64 z
  | VUint8 z | VUint16 z | VUint32 z | VUint z | VUint64 z =>
      if z <? 0 then VInt64 z else VUint64 z
  | VUndefined _ => VUndefined simpleUndefined
  | VArray items => VArray (map canon items)
  | VMap items => VMap (map (fun kv => (canon (fst kv), canon (snd kv))) items)
  | v => v
  end.

(** What a value means, apart from the Go type that carries it: an integer
    is its number, a float its bits at its width. *)
Inductive Meaning : Type :=
| MNull
| MBool (b : bool)
| MInteger (z : Z)
| MFloat32 (bits : Z)
| MFloat64 (bits : Z)
| MBytes (s : list Z)
| MText (s : list Z)
| MArray (items : list Meaning)
| MMap (items : list (Meaning * Meaning))
| MUndefined
| MIndefinite (b : Z)
| MBreakStop (b : Z)
| MTagged (k : TaggedKind) (repr : list Z).

Fixpoint meaning (v : Value) : Meaning :=
  match v with
  | VNil => MNull
  | VBool b => MBool b
  | VInt8 z | VInt16 z | VInt32 z | VInt z | VInt64 z
  | VUint8 z | VUint16 z | VUint32 z | VUint z | VUint64 z => MInteger z
  | VFloat32 bits => MFloat32 bits
  | VFloat64 bits => MFloat64 bits
  | VBytes s => MBytes s
  | VString s => MText s
  | VArray items => MArray (map meaning items)
  | VMap items => MMap (map (fun kv => (meaning (fst kv), meaning (snd kv))) items)
  | VUndefined _ => MUndefined
  | VIndefinite b => MIndefinite b
  | VBreakStop b => MBreakStop b
  | VTagged k repr => MTagged k repr
  end.

(** [encode] writes the encoding of the value over the front of a slice that
    has room for it, and returns its length. *)
Definition writes (encodeTagged : TaggedKind -> list Z -> list Z -> result (Z * list Z))
    (v : Value) : Prop :=
  supported v = true ->
  forall out, len (encoding v) <= len out ->
    encode encodeTagged v out = Ok (len (encoding v), overwrite (encoding v) out).

(** [decode] reads the canonical form of a value back from its encoding,
    whatever follows it in a slice whose length fits an [int], and returns
    the length of the encoding. *)
Definition reads (decodeTag : decoder -> decoder) (v : Value) : Prop :=
  supported v = true ->
  forall (fuel : nat) (rest : list Z),
    (length (encoding v) < fuel)%nat ->
    len (encoding v ++ rest) < 2 ^ 63 ->
    decode_rec decodeTag fuel (encoding v ++ rest) = Ok (canon v, len (encoding v)).

(** *** Text pointers and their segments *)

(** The escapes of RFC 6901: ['~'] is written [~0] and ['/'] is written
    [~1]. *)
Definition escape_char (c : Z) : list Z :=
  if c =? Char.tilde then [Char.tilde; Char.zero]
  else if c =? Char.slash then [Char.tilde; Char.one]
  else [c].

Definition escape (seg : list Z) : list Z := flat_map escape_char seg.

(** The text pointer of a list of segments: every segment escaped, after a
    ['/']. *)
Definition pointer_text (segs : list (list Z)) : list Z :=
  flat_map (fun seg => Char.slash :: escape seg) segs.

(** The segments of a text pointer of valid syntax, [None] if the syntax is
    not valid: the text is empty or starts with ['/'], and ['0'] or ['1']
    follows every ['~']. *)
Definition push (c : Z) (r : option (list (list Z))) : option (list (list Z)) :=
  match r with
  | Some (seg :: segs) => Some ((c :: seg) :: segs)
  | _ => None
  end.

Fixpoint parse_tokens (p : list Z) : option (list (list Z)) :=
  match p with
  | [] => Some [[]]
  | c :: p' =>
      if c =? Char.slash then
        match parse_tokens p' with
        | Some segs => Some ([] :: segs)
        | None => None
        end
      else if c =? Char.tilde then
        match p' with
        | d :: p'' =>
            if d =? Char.zero then push Char.tilde (parse_tokens p'')
            else if d =? Char.one then push Char.slash (parse_tokens p'')
            else None
        | [] => None
        end
      else push c (parse_tokens p')
  end.

Definition parse_pointer (p : list Z) : option (list (list Z)) :=
  match p with
  | [] => Some []
  | c :: p' => if c =? Char.slash then parse_tokens p' else None
  end.

(** The CBOR pointer of a list of segments: the text-chunk-start byte, a
    [tagJsonString] tag and a definite text string per segment, and the
    break-stop. *)
Definition cbor_segment (seg : list Z) : list Z :=
  [type6 + info24; tagJsonString] ++ head type3 (len seg) ++ seg.

Definition cbor_pointer (segs : list (list Z)) : list Z :=
  (type3 + indefiniteLength) :: flat_map cbor_segment segs ++ [type7 + itemBreak].

(** No segment but the last is empty. *)
Fixpoint inner_segments_nonempty (segs : list (list Z)) : bool :=
  match segs with
  | [] => true
  | seg :: segs' =>
      match segs' with
      | [] => true
      | _ => (0 <? len seg) && inner_segments_nonempty segs'
      end
  end.

(** Every segment fits the scratch array of [FromJsonPointer]. *)
Definition segments_fit (segs : list (list Z)) : bool :=
  forallb (fun seg => len seg <=? maxPartSize) segs.

(** What [FromJsonPointer] writes for the segment pending in its scratch
    array when it meets a ['/']. *)
Definition emitted (pend : list Z) : list Z :=
  if 0 <? len pend then cbor_segment pend else [].

(** The segment pending and the bytes written when the loop of
    [FromJsonPointer] has passed the segments [rem], from a pending segment
    [pend] and the written bytes [W]. *)
Fixpoint passed (pend W : list Z) (rem : list (list Z)) : list Z * list Z :=
  match rem with
  | [] => (pend, W)
  | seg :: rem' => passed seg (W ++ emitted pend) rem'
  end.

(** * Properties *)

(** ** The Go runtime *)

Ltac Zify.zify_post_hook ::= Z.to_euclidean_division_equations.

Lemma len_nil {A : Type} : len (@nil A) = 0.
Proof. reflexivity. Qed.

Lemma len_cons {A : Type} (x : A) (s : list A) : len (x :: s) = 1 + len s.
Proof. unfold len. simpl length. lia. Qed.

Lemma len_app {A : Type} (s t : list A) : len (s ++ t) = len s + len t.
Proof. unfold len. rewrite length_app. lia. Qed.

Lemma len_nonneg {A : Type} (s : list A) : 0 <= len s.
Proof. unfold len. lia. Qed.

Lemma len_insert {A : Type} (s : list A) (i : nat) (x : A) :
  len (<[i := x]> s) = len s.
Proof. unfold len. now rewrite length_insert. Qed.

Lemma len_replicate {A : Type} (n : nat) (x : A) :
  len (replicate n x) = Z.of_nat n.
Proof. unfold len. now rewrite length_replicate. Qed.

Lemma len_drop {A : Type} (s : list A) (n : nat) :
  len (drop n s) = Z.max 0 (len s - Z.of_nat n).
Proof. unfold len. rewrite length_drop. lia. Qed.

Lemma len_take {A : Type} (s : list A) (n : nat) :
  len (take n s) = Z.min (Z.of_nat n) (len s).
Proof. unfold len. rewrite length_take. lia. Qed.

Create Rewrite HintDb len.
#[export] Hint Rewrite @len_nil @len_cons @len_app @len_insert @len_replicate
  @len_drop @len_take : len.

Create Rewrite HintDb natlen.
#[export] Hint Rewrite @length_app @length_insert @length_replicate
  @length_drop @length_take : natlen.

(** Goals about lengths and offsets. *)
Ltac len_solve :=
  autorewrite with len in *;
  unfold len in *;
  autorewrite with natlen in *;
  cbn [length] in *;
  try lia.

Lemma bind_ok {A B : Type} (m : result A) (k : A -> result B) (a : A) :
  m = Ok a -> bind m k = k a.
Proof. now intros ->. Qed.

Lemma load_ok {A : Type} (s : list A) (i : Z) (x : A) :
  0 <= i -> s !! Z.to_nat i = Some x -> load s i = Ok x.
Proof.
  intros Hi Hx. unfold load.
  pose proof (lookup_lt_Some _ _ _ Hx) as Hlt.
  replace ((0 <=? i) && (i <? len s)) with true; [now rewrite Hx|].
  symmetry. apply andb_true_iff. unfold len. split; lia.
Qed.

Lemma load_app {A : Type} (pre : list A) (x : A) (post : list A) (i : Z) :
  i = len pre -> load (pre ++ x :: post) i = Ok x.
Proof.
  intros ->. apply load_ok; [apply len_nonneg|].
  unfold len. rewrite Nat2Z.id. now rewrite list_lookup_middle.
Qed.

Lemma load_head {A : Type} (x : A) (s : list A) : load (x :: s) 0 = Ok x.
Proof. now apply (load_app []). Qed.

Lemma load_second {A : Type} (x0 x1 : A) (s : list A) :
  load (x0 :: x1 :: s) 1 = Ok x1.
Proof. now apply (load_app [x0]). Qed.

(** Loads at constant indices of a list given cell by cell. *)
Ltac loads :=
  cbn [bind];
  repeat (erewrite load_ok; [ | lia | reflexivity ]; cbn [bind]).

Lemma load_out_of_range {A : Type} (s : list A) (i : Z) :
  len s <= i -> load s i = Panic IndexOutOfRange.
Proof.
  intros Hi. unfold load.
  destruct (0 <=? i); [|reflexivity].
  now replace (i <? len s) with false by lia.
Qed.

Lemma store_ok {A : Type} (s : list A) (i : Z) (x : A) :
  0 <= i < len s -> store s i x = Ok (<[Z.to_nat i := x]> s).
Proof.
  intros Hi. unfold store.
  now replace ((0 <=? i) && (i <? len s)) with true by lia.
Qed.

Lemma store_app {A : Type} (pre : list A) (x y : A) (post : list A) (i : Z) :
  i = len pre -> store (pre ++ x :: post) i y = Ok (pre ++ y :: post).
Proof.
  intros ->. rewrite store_ok by len_solve.
  unfold len. rewrite Nat2Z.id.
  replace (length pre) with (length pre + 0)%nat by lia.
  now rewrite insert_app_r.
Qed.

Lemma store_head {A : Type} (x y : A) (s : list A) :
  store (x :: s) 0 y = Ok (y :: s).
Proof. now apply (store_app []). Qed.

Lemma store_second {A : Type} (x0 x1 y : A) (s : list A) :
  store (x0 :: x1 :: s) 1 y = Ok (x0 :: y :: s).
Proof. now apply (store_app [x0]). Qed.

Lemma slice_from_ok {A : Type} (s : list A) (n : Z) :
  0 <= n <= len s -> slice_from s n = Ok (drop (Z.to_nat n) s).
Proof.
  intros Hn. unfold slice_from.
  now replace ((0 <=? n) && (n <=? len s)) with true by lia.
Qed.

Lemma slice_from_app {A : Type} (pre post : list A) (n : Z) :
  n = len pre -> slice_from (pre ++ post) n = Ok post.
Proof.
  intros ->. rewrite slice_from_ok by len_solve.
  unfold len. rewrite Nat2Z.id. now rewrite drop_app_length.
Qed.

Lemma slice_from_tail {A : Type} (x : A) (s : list A) :
  slice_from (x :: s) 1 = Ok s.
Proof. now apply (slice_from_app [x]). Qed.

Lemma slice_to_ok {A : Type} (s : list A) (m : Z) :
  0 <= m <= len s -> slice_to s m = Ok (take (Z.to_nat m) s).
Proof.
  intros Hm. unfold slice_to.
  now replace ((0 <=? m) && (m <=? len s)) with true by lia.
Qed.

Lemma slice_ok {A : Type} (s : list A) (n m : Z) :
  0 <= n <= m -> m <= len s ->
  slice s n m = Ok (take (Z.to_nat (m - n)) (drop (Z.to_nat n) s)).
Proof.
  intros Hn Hm. unfold slice.
  now replace ((0 <=? n) && (n <=? m) && (m <=? len s)) with true by lia.
Qed.

Lemma slice_app {A : Type} (pre mid post : list A) (n m : Z) :
  n = len pre -> m = len pre + len mid ->
  slice (pre ++ mid ++ post) n m = Ok mid.
Proof.
  intros -> ->. rewrite slice_ok by len_solve.
  unfold len. rewrite Nat2Z.id, drop_app_length.
  replace (Z.to_nat _) with (length mid) by lia.
  now rewrite take_app_length.
Qed.

Lemma within_ok {A : Type} (pre post post' : list Z) (n : Z) (a : A)
    (f : list Z -> result (A * list Z)) :
  n = len pre -> f post = Ok (a, post') ->
  within (pre ++ post) n f = Ok (a, pre ++ post').
Proof.
  intros -> Hf. unfold within.
  rewrite slice_from_app by reflexivity. rewrite Hf.
  unfold len. rewrite Nat2Z.id. now rewrite take_app_length.
Qed.

Lemma within_tail {A : Type} (x : Z) (post post' : list Z) (a : A)
    (f : list Z -> result (A * list Z)) :
  f post = Ok (a, post') -> within (x :: post) 1 f = Ok (a, x :: post').
Proof. intros Hf. now apply (within_ok [x]). Qed.

Lemma loop_unfold {S R : Type} (fuel : nat) (body : S -> result (S + R)) (s : S) :
  loop (Datatypes.S fuel) body s =
  match body s with
  | Ok (inl s') => loop fuel body s'
  | Ok (inr r) => Ok r
  | Panic e => Panic e
  | OutOfFuel => OutOfFuel
  end.
Proof. reflexivity. Qed.

Lemma loop_continue {S R : Type} (fuel : nat) (body : S -> result (S + R)) (s s' : S) :
  body s = Ok (inl s') -> loop (Datatypes.S fuel) body s = loop fuel body s'.
Proof. intros H. now rewrite loop_unfold, H. Qed.

Lemma loop_break {S R : Type} (fuel : nat) (body : S -> result (S + R)) (s : S) (r : R) :
  body s = Ok (inr r) -> loop (Datatypes.S fuel) body s = Ok r.
Proof. intros H. now rewrite loop_unfold, H. Qed.

(** A state that the body maps to itself is never left. *)
Lemma loop_stuck {S R : Type} (body : S -> result (S + R)) (s : S) :
  body s = Ok (inl s) -> forall fuel, loop fuel body s = OutOfFuel.
Proof.
  intros H fuel. induction fuel as [|fuel IH]; [reflexivity|].
  now rewrite (loop_continue _ _ _ _ H).
Qed.

(** ** Integer conversions *)

Lemma unsigned_small (w z : Z) : 0 <= z < 2 ^ w -> unsigned w z = z.
Proof. intros H. unfold unsigned. now apply Z.mod_small. Qed.

Lemma signed_small (w z : Z) :
  0 < w -> - 2 ^ (w - 1) <= z < 2 ^ (w - 1) -> signed w z = z.
Proof.
  intros Hw H. unfold signed.
  replace (2 ^ w) with (2 * 2 ^ (w - 1)).
  - rewrite Z.mod_small; lia.
  - rewrite <- Z.pow_succ_r by lia. f_equal. lia.
Qed.

Lemma uint8_small z : 0 <= z < 256 -> uint8 z = z.
Proof. intros. now apply unsigned_small. Qed.
Lemma uint16_small z : 0 <= z < 65536 -> uint16 z = z.
Proof. intros. now apply unsigned_small. Qed.
Lemma uint32_small z : 0 <= z < 4294967296 -> uint32 z = z.
Proof. intros. now apply unsigned_small. Qed.
Lemma uint64_small z : 0 <= z < 18446744073709551616 -> uint64 z = z.
Proof. intros. now apply unsigned_small. Qed.
Lemma int8_small z : -128 <= z < 128 -> int8 z = z.
Proof. intros. now apply signed_small. Qed.
Lemma int16_small z : -32768 <= z < 32768 -> int16 z = z.
Proof. intros. now apply signed_small. Qed.
Lemma int32_small z : -2147483648 <= z < 2147483648 -> int32 z = z.
Proof. intros. now apply signed_small. Qed.
Lemma int64_small z :
  -9223372036854775808 <= z < 9223372036854775808 -> int64 z = z.
Proof. intros. now apply signed_small. Qed.

Lemma add_small a b :
  -9223372036854775808 <= a + b < 9223372036854775808 -> add a b = a + b.
Proof. intros. unfold add. now apply int64_small. Qed.

(** ** Big-endian payloads *)

Lemma uint8_shiftr (v s : Z) (k : nat) :
  s = 8 * Z.of_nat k ->
  uint8 (Z.shiftr v s) = (v / 256 ^ Z.of_nat k) mod 256.
Proof.
  intros ->. unfold uint8, unsigned. rewrite Z.shiftr_div_pow2 by lia.
  rewrite Z.pow_mul_r by lia. reflexivity.
Qed.

Lemma uint8_low (v : Z) : uint8 v = (v / 256 ^ Z.of_nat 0) mod 256.
Proof. unfold uint8, unsigned. simpl (256 ^ _). now rewrite Z.div_1_r. Qed.

Lemma big_endian_length (k : nat) (v : Z) : length (big_endian k v) = k.
Proof. induction k; simpl; congruence. Qed.

#[export] Hint Rewrite big_endian_length : natlen.

Lemma split2 {A : Type} (s : list A) :
  2 <= len s -> exists x0 x1 rest, s = x0 :: x1 :: rest.
Proof.
  destruct s as [|x0 [|x1 rest]]; intros H; autorewrite with len in H;
    try lia; eauto.
Qed.

Lemma split4 {A : Type} (s : list A) :
  4 <= len s -> exists x0 x1 x2 x3 rest, s = x0 :: x1 :: x2 :: x3 :: rest.
Proof.
  intros H. destruct (split2 s) as (x0 & x1 & s' & ->); [lia|].
  destruct (split2 s') as (x2 & x3 & rest & ->);
    [autorewrite with len in H; lia|]. eauto 6.
Qed.

Lemma split8 {A : Type} (s : list A) :
  8 <= len s ->
  exists x0 x1 x2 x3 x4 x5 x6 x7 rest,
    s = x0 :: x1 :: x2 :: x3 :: x4 :: x5 :: x6 :: x7 :: rest.
Proof.
  intros H. destruct (split4 s) as (x0 & x1 & x2 & x3 & s' & ->); [lia|].
  destruct (split4 s') as (x4 & x5 & x6 & x7 & rest & ->);
    [autorewrite with len in H; lia|]. eauto 10.
Qed.

Lemma PutUint16_ok (b : list Z) (v : Z) :
  2 <= len b ->
  BigEndian.PutUint16 b v = Ok (overwrite (big_endian 2 v) b).
Proof.
  intros H. destruct (split2 b H) as (x0 & x1 & rest & ->).
  unfold BigEndian.PutUint16.
  erewrite load_ok by (first [lia | reflexivity]). cbn [bind].
  rewrite store_ok by len_solve. cbn [bind].
  rewrite store_ok by len_solve.
  rewrite (uint8_shiftr v 8 1) by reflexivity. rewrite uint8_low. reflexivity.
Qed.

Lemma PutUint32_ok (b : list Z) (v : Z) :
  4 <= len b ->
  BigEndian.PutUint32 b v = Ok (overwrite (big_endian 4 v) b).
Proof.
  intros H. destruct (split4 b H) as (x0 & x1 & x2 & x3 & rest & ->).
  unfold BigEndian.PutUint32.
  erewrite load_ok by (first [lia | reflexivity]). cbn [bind].
  do 3 (rewrite store_ok by len_solve; cbn [bind]).
  rewrite store_ok by len_solve.
  rewrite (uint8_shiftr v 24 3), (uint8_shiftr v 16 2), (uint8_shiftr v 8 1)
    by reflexivity.
  rewrite uint8_low.
  reflexivity.
Qed.

Lemma PutUint64_ok (b : list Z) (v : Z) :
  8 <= len b ->
  BigEndian.PutUint64 b v = Ok (overwrite (big_endian 8 v) b).
Proof.
  intros H.
  destruct (split8 b H) as (x0 & x1 & x2 & x3 & x4 & x5 & x6 & x7 & rest & ->).
  unfold BigEndian.PutUint64.
  erewrite load_ok by (first [lia | reflexivity]). cbn [bind].
  do 7 (rewrite store_ok by len_solve; cbn [bind]).
  rewrite store_ok by len_solve.
  rewrite (uint8_shiftr v 56 7), (uint8_shiftr v 48 6), (uint8_shiftr v 40 5),
    (uint8_shiftr v 32 4), (uint8_shiftr v 24 3), (uint8_shiftr v 16 2),
    (uint8_shiftr v 8 1) by reflexivity.
  rewrite uint8_low.
  reflexivity.
Qed.

(** ** Headers *)

Lemma hdr_add (mt i : Z) : mt ∈ major_types -> 0 <= i < 32 -> hdr mt i = mt + i.
Proof.
  intros Hmt Hi.
  assert (Hin : i ∈ seqZ 0 32) by (apply elem_of_seqZ; lia).
  revert i Hin Hi. apply (Forall_forall (fun i => _ -> hdr mt i = mt + i)).
  revert mt Hmt. apply Forall_forall.
  compute_done.
Qed.

Lemma major_hdr (mt i : Z) : mt ∈ major_types -> 0 <= i < 32 -> major (mt + i) = mt.
Proof.
  intros Hmt Hi.
  assert (Hin : i ∈ seqZ 0 32) by (apply elem_of_seqZ; lia).
  revert i Hin Hi. apply (Forall_forall (fun i => _ -> major (mt + i) = mt)).
  revert mt Hmt. apply Forall_forall.
  compute_done.
Qed.

Lemma info_hdr (mt i : Z) : mt ∈ major_types -> 0 <= i < 32 -> info (mt + i) = i.
Proof.
  intros Hmt Hi.
  assert (Hin : i ∈ seqZ 0 32) by (apply elem_of_seqZ; lia).
  revert i Hin Hi. apply (Forall_forall (fun i => _ -> info (mt + i) = i)).
  revert mt Hmt. apply Forall_forall.
  compute_done.
Qed.

(** Retagging a type-0 header, [(buf[0] & 0x1f) | mt]. *)
Lemma retag (mt i : Z) :
  mt ∈ major_types -> 0 <= i < 32 -> Z.lor (Z.land (type0 + i) 31) mt = mt + i.
Proof.
  intros Hmt Hi.
  assert (Hin : i ∈ seqZ 0 32) by (apply elem_of_seqZ; lia).
  revert i Hin Hi.
  apply (Forall_forall (fun i => _ -> Z.lor (Z.land (type0 + i) 31) mt = mt + i)).
  revert mt Hmt. apply Forall_forall.
  compute_done.
Qed.

Lemma major_types_0 : type0 ∈ major_types. Proof. compute_done. Qed.
Lemma major_types_1 : type1 ∈ major_types. Proof. compute_done. Qed.
Lemma major_types_2 : type2 ∈ major_types. Proof. compute_done. Qed.
Lemma major_types_3 : type3 ∈ major_types. Proof. compute_done. Qed.
Lemma major_types_4 : type4 ∈ major_types. Proof. compute_done. Qed.
Lemma major_types_5 : type5 ∈ major_types. Proof. compute_done. Qed.
Lemma major_types_6 : type6 ∈ major_types. Proof. compute_done. Qed.
Lemma major_types_7 : type7 ∈ major_types. Proof. compute_done. Qed.

Create HintDb cbor discriminated.
#[export] Hint Resolve major_types_0 major_types_1 major_types_2 major_types_3
  major_types_4 major_types_5 major_types_6 major_types_7 : cbor.

(** ** The integer encoders *)

(** Settles the comparisons of a goal from the bounds in the context. *)
Ltac by_range :=
  repeat match goal with
         | |- context [?a <? ?b] => destruct (Z.ltb_spec a b); try lia
         | |- context [?a <=? ?b] => destruct (Z.leb_spec a b); try lia
         | |- context [?a >? ?b] => rewrite (Z.gtb_ltb a b)
         | |- context [?a >=? ?b] => rewrite (Z.geb_leb a b)
         end.

Lemma head_length (mt n : Z) : len (head mt n) = width n.
Proof. unfold head, width. by_range; reflexivity. Qed.

Lemma width_bounds (n : Z) : 1 <= width n <= 9.
Proof. unfold width. by_range. Qed.

Lemma overwrite_length (bytes out : list Z) :
  len bytes <= len out -> len (overwrite bytes out) = len out.
Proof. intros H. unfold overwrite. len_solve. Qed.

Lemma overwrite_cons (b x : Z) (bytes out : list Z) :
  overwrite (b :: bytes) (x :: out) = b :: overwrite bytes out.
Proof. reflexivity. Qed.

(** A header byte followed by a payload written by [put]. *)
Lemma header_then_payload (h : Z) (payload out : list Z) (k : Z)
    (put : list Z -> result (list Z)) :
  1 + len payload <= len out ->
  (forall b, len payload <= len b -> put b = Ok (overwrite payload b)) ->
  (buf <- store out 0 h ;
   '(_, buf) <- within buf 1 (fun b => b <- put b ; Ok (tt, b)) ;
   Ok (k, buf)) = Ok (k, overwrite (h :: payload) out).
Proof.
  intros Hlen Hput. destruct out as [|x0 out]; [len_solve|].
  rewrite store_head. cbn [bind].
  rewrite (within_tail h out (overwrite payload out) tt); [reflexivity|].
  rewrite Hput by len_solve. reflexivity.
Qed.

Lemma encodeUint8_ok (item : Z) (out : list Z) :
  0 <= item < 256 -> width item <= len out ->
  encodeUint8 item out = Ok (width item, overwrite (head type0 item) out).
Proof.
  intros Hitem. unfold encodeUint8, MaxSmallInt, width, head.
  by_range; intros Hlen.
  - destruct out as [|x0 out]; [len_solve|].
    rewrite store_head, hdr_add by (auto with cbor; lia). reflexivity.
  - destruct (split2 out Hlen) as (x0 & x1 & rest & ->).
    rewrite store_head. cbn [bind]. rewrite store_second.
    cbn [bind big_endian]. rewrite <- uint8_low, uint8_small by lia.
    reflexivity.
Qed.

Lemma encodeUint16_ok (item : Z) (out : list Z) :
  0 <= item < 65536 -> width item <= len out ->
  encodeUint16 item out = Ok (width item, overwrite (head type0 item) out).
Proof.
  intros Hitem. unfold encodeUint16.
  destruct (Z.ltb_spec item 256).
  - intros Hlen. rewrite uint8_small by lia. now apply encodeUint8_ok.
  - unfold width, head. by_range. intros Hlen.
    rewrite hdr_add by (auto with cbor; compute_done).
    apply header_then_payload.
    + len_solve.
    + intros b Hb. apply PutUint16_ok. len_solve.
Qed.

Lemma encodeUint32_ok (item : Z) (out : list Z) :
  0 <= item < 4294967296 -> width item <= len out ->
  encodeUint32 item out = Ok (width item, overwrite (head type0 item) out).
Proof.
  intros Hitem. unfold encodeUint32.
  destruct (Z.ltb_spec item 65536).
  - intros Hlen. rewrite uint16_small by lia. now apply encodeUint16_ok.
  - unfold width, head. by_range. intros Hlen.
    rewrite hdr_add by (auto with cbor; compute_done).
    apply header_then_payload.
    + len_solve.
    + intros b Hb. apply PutUint32_ok. len_solve.
Qed.

Lemma encodeUint64_ok (item : Z) (out : list Z) :
  0 <= item < 18446744073709551616 -> width item <= len out ->
  encodeUint64 item out = Ok (width item, overwrite (head type0 item) out).
Proof.
  intros Hitem. unfold encodeUint64.
  destruct (Z.ltb_spec item 4294967296).
  - intros Hlen. rewrite uint32_small by lia. now apply encodeUint32_ok.
  - unfold width, head. by_range. intros Hlen.
    rewrite hdr_add by (auto with cbor; compute_done).
    apply header_then_payload.
    + len_solve.
    + intros b Hb. apply PutUint64_ok. len_solve.
Qed.

(** The signed encoders. *)

Lemma int_bytes_nonneg (z : Z) : 0 <= z -> int_bytes z = head type0 z.
Proof. intros H. unfold int_bytes. by_range. reflexivity. Qed.

Lemma encodeInt8_ok (item : Z) (out : list Z) :
  -128 <= item < 128 -> len (int_bytes item) <= len out ->
  encodeInt8 item out = Ok (len (int_bytes item), overwrite (int_bytes item) out).
Proof.
  intros Hitem. unfold encodeInt8, MaxSmallInt.
  destruct (Z.gtb_spec item 23); [|destruct (Z.ltb_spec item (-23));
    [|destruct (Z.ltb_spec item 0)]];
    unfold int_bytes, neg_head, head; by_range; intros Hlen.
  - destruct (split2 out) as (x0 & x1 & rest & ->); [len_solve|].
    rewrite store_head. cbn [bind]. rewrite store_second.
    rewrite hdr_add by (auto with cbor; compute_done).
    cbn [bind big_endian]. rewrite <- uint8_low. reflexivity.
  - destruct (split2 out) as (x0 & x1 & rest & ->); [len_solve|].
    rewrite store_head. cbn [bind]. rewrite store_second.
    rewrite hdr_add by (auto with cbor; compute_done).
    rewrite (int8_small (item + 1)), (int8_small (- (item + 1))) by lia.
    cbn [bind big_endian]. rewrite <- uint8_low. reflexivity.
  - destruct out as [|x0 out]; [len_solve|].
    rewrite store_head.
    rewrite (int8_small (item + 1)), (int8_small (- (item + 1))) by lia.
    rewrite uint8_small by lia.
    rewrite hdr_add by (auto with cbor; lia). reflexivity.
  - destruct out as [|x0 out]; [len_solve|].
    rewrite store_head. rewrite uint8_small by lia.
    rewrite hdr_add by (auto with cbor; lia). reflexivity.
Qed.

(** The two-byte forms written by two stores. *)
Lemma header_then_byte (h p k : Z) (out : list Z) :
  2 <= len out ->
  (buf <- store out 0 h ; buf <- store buf 1 p ; Ok (k, buf))
  = Ok (k, overwrite [h; p] out).
Proof.
  intros H. destruct (split2 out H) as (x0 & x1 & rest & ->).
  rewrite store_head. cbn [bind]. rewrite store_second. reflexivity.
Qed.

Lemma encodeInt16_ok (item : Z) (out : list Z) :
  -32768 <= item < 32768 -> len (int_bytes item) <= len out ->
  encodeInt16 item out = Ok (len (int_bytes item), overwrite (int_bytes item) out).
Proof.
  intros Hitem. unfold encodeInt16.
  destruct (Z.gtb_spec item 127);
    [destruct (Z.ltb_spec item 256)
    |destruct (Z.ltb_spec item (-128)); [destruct (Z.gtb_spec item (-256))|]].
  5: { intros Hlen. rewrite int8_small by lia. apply encodeInt8_ok; [lia|exact Hlen]. }
  all: unfold int_bytes, neg_head, head; by_range; intros Hlen.
  all: rewrite ?(int16_small (item + 1)), ?(int16_small (- (item + 1))) by lia.
  all: rewrite hdr_add by (auto with cbor; compute_done).
  - rewrite header_then_byte by len_solve.
    cbn [big_endian]. rewrite <- uint8_low. reflexivity.
  - rewrite uint16_small by lia.
    apply header_then_payload; [len_solve|].
    intros b Hb. apply PutUint16_ok. len_solve.
  - rewrite header_then_byte by len_solve.
    cbn [big_endian]. rewrite <- uint8_low. reflexivity.
  - rewrite uint16_small by lia.
    apply header_then_payload; [len_solve|].
    intros b Hb. apply PutUint16_ok. len_solve.
Qed.

Lemma encodeInt32_ok (item : Z) (out : list Z) :
  -2147483648 <= item < 2147483648 -> len (int_bytes item) <= len out ->
  encodeInt32 item out = Ok (len (int_bytes item), overwrite (int_bytes item) out).
Proof.
  intros Hitem. unfold encodeInt32.
  destruct (Z.gtb_spec item 32767);
    [destruct (Z.ltb_spec item 65536)
    |destruct (Z.ltb_spec item (-32768)); [destruct (Z.gtb_spec item (-65536))|]].
  5: { intros Hlen. rewrite int16_small by lia. apply encodeInt16_ok; [lia|exact Hlen]. }
  all: unfold int_bytes, neg_head, head; by_range; intros Hlen.
  all: rewrite ?(int32_small (item + 1)), ?(int32_small (- (item + 1))) by lia.
  all: rewrite hdr_add by (auto with cbor; compute_done).
  all: rewrite ?uint16_small, ?uint32_small by lia.
  all: apply header_then_payload; [len_solve|]; intros b Hb.
  - apply PutUint16_ok. len_solve.
  - apply PutUint32_ok. len_solve.
  - apply PutUint16_ok. len_solve.
  - apply PutUint32_ok. len_solve.
Qed.

Lemma encodeInt64_ok (item : Z) (out : list Z) :
  -9223372036854775808 <= item < 9223372036854775808 ->
  len (int_bytes item) <= len out ->
  encodeInt64 item out = Ok (len (int_bytes item), overwrite (int_bytes item) out).
Proof.
  intros Hitem. unfold encodeInt64.
  destruct (Z.gtb_spec item 2147483647);
    [destruct (Z.ltb_spec item 4294967296)
    |destruct (Z.ltb_spec item (-2147483648));
     [destruct (Z.gtb_spec item (-4294967296))|]].
  5: { intros Hlen. rewrite int32_small by lia. apply encodeInt32_ok; [lia|exact Hlen]. }
  all: unfold int_bytes, neg_head, head; by_range; intros Hlen.
  all: rewrite ?(int64_small (item + 1)), ?(int64_small (- (item + 1))) by lia.
  all: rewrite hdr_add by (auto with cbor; compute_done).
  all: rewrite ?uint32_small, ?uint64_small by lia.
  all: apply header_then_payload; [len_solve|]; intros b Hb.
  - apply PutUint32_ok. len_solve.
  - apply PutUint64_ok. len_solve.
  - apply PutUint32_ok. len_solve.
  - apply PutUint64_ok. len_solve.
Qed.

(** ** Integers on the wire *)

Lemma width_minimal (n w : Z) :
  0 <= n -> w ∈ [1; 2; 3; 5; 9] -> n < capacity w -> width n <= w.
Proof.
  intros Hn Hw. unfold capacity, width.
  repeat (apply elem_of_cons in Hw as [->|Hw]); [..|now apply elem_of_nil in Hw];
    cbn; by_range.
Qed.

Lemma width_fits (n : Z) : 0 <= n < 2 ^ 64 -> n < capacity (width n).
Proof. intros Hn. unfold capacity, width. by_range; cbn; lia. Qed.

(** C2.  An integer n of [0, 2^63) is encoded in the minimum width: the
    encoder returns [width n], which is 1 below 24, 2 below 2^8, 3 below
    2^16, 5 below 2^32 and 9 from there on, it is the least of the five
    header widths whose capacity exceeds n, and the bytes written are the
    header of that width; the signed cascade ([int], [int64]) and the
    unsigned one ([uint], [uint64]) write the same bytes. *)
Theorem encode_integer_minimum_width :
  forall (encodeTagged : TaggedKind -> list Z -> list Z -> result (Z * list Z))
         (n : Z) (out : list Z),
    0 <= n < 2 ^ 63 ->
    width n <= len out ->
    (forall v, v ∈ [VInt n; VInt64 n; VUint n; VUint64 n] ->
       encode encodeTagged v out = Ok (width n, overwrite (head type0 n) out)) /\
    encodeInt64 n out = encodeUint64 n out /\
    len (head type0 n) = width n /\
    n < capacity (width n) /\
    (forall w, w ∈ [1; 2; 3; 5; 9] -> n < capacity w -> width n <= w).
Proof.
  intros encodeTagged n out Hn Hlen.
  assert (Hu : encodeUint64 n out = Ok (width n, overwrite (head type0 n) out))
    by (apply encodeUint64_ok; lia).
  assert (Hs : encodeInt64 n out = Ok (width n, overwrite (head type0 n) out)).
  { rewrite <- (head_length type0 n), <- int_bytes_nonneg by lia.
    apply encodeInt64_ok; [lia|].
    rewrite int_bytes_nonneg, head_length by lia. exact Hlen. }
  repeat split.
  - intros v Hv.
    repeat (apply elem_of_cons in Hv as [->|Hv]); [..|now apply elem_of_nil in Hv];
      cbn [encode]; rewrite ?int64_small, ?uint64_small by lia; assumption.
  - congruence.
  - apply head_length.
  - apply width_fits. lia.
  - intros w Hw. apply width_minimal; [lia|exact Hw].
Qed.

Lemma encode_integer_minimum_width_witness :
  0 <= 1000 < 2 ^ 63 /\
  encode untagged_encoder (VInt 1000) (replicate 4 0) = Ok (3, [25; 3; 232; 0]).
Proof.
  split; [lia|].
  refine (proj1 (encode_integer_minimum_width untagged_encoder 1000
                   (replicate 4 0) _ _) (VInt 1000) _).
  - lia.
  - vm_compute. discriminate.
  - apply list_elem_of_here.
Defined.

(** The length of the encoding of an integer literal. *)
Ltac literal_len :=
  match goal with
  | |- len (int_bytes ?z) <= _ =>
      let k := eval vm_compute in (len (int_bytes z)) in
      change (len (int_bytes z)) with k; lia
  end.

(** C4, as the code has it.  The literal encodings of the small
    integers, for every signed integer type: 0 is [00], 23 is [17], 24 is
    [18 18], -1 is [20], -25 is [38 18], and -24 is the two bytes [38 17]:
    [encodeInt8] keeps the immediate form for the items -23..-1 and sends
    every item below -23 to the form with a one-byte payload. *)
Theorem encode_small_integer_literals :
  forall (encodeTagged : TaggedKind -> list Z -> list Z -> result (Z * list Z))
         (mk : Z -> Value) (out : list Z),
    mk ∈ signed_kinds ->
    2 <= len out ->
    encode encodeTagged (mk 0) out = Ok (1, overwrite [0x00] out) /\
    encode encodeTagged (mk 23) out = Ok (1, overwrite [0x17] out) /\
    encode encodeTagged (mk 24) out = Ok (2, overwrite [0x18; 0x18] out) /\
    encode encodeTagged (mk (-1)) out = Ok (1, overwrite [0x20] out) /\
    encode encodeTagged (mk (-24)) out = Ok (2, overwrite [0x38; 0x17] out) /\
    encode encodeTagged (mk (-25)) out = Ok (2, overwrite [0x38; 0x18] out).
Proof.
  intros encodeTagged mk out Hmk Hlen. unfold signed_kinds in Hmk.
  repeat (apply elem_of_cons in Hmk as [->|Hmk]); [..|now apply elem_of_nil in Hmk];
    cbn [encode];
    rewrite ?int64_small by lia;
    repeat split;
    first [ rewrite encodeInt8_ok by (first [lia | literal_len])
          | rewrite encodeInt16_ok by (first [lia | literal_len])
          | rewrite encodeInt32_ok by (first [lia | literal_len])
          | rewrite encodeInt64_ok by (first [lia | literal_len]) ];
    reflexivity.
Qed.

Lemma encode_small_integer_literals_witness :
  encode untagged_encoder (VInt (-24)) [0; 0] = Ok (2, [0x38; 0x17]).
Proof.
  refine (proj1 (proj2 (proj2 (proj2 (proj2
    (encode_small_integer_literals untagged_encoder VInt [0; 0] _ _)))))).
  - unfold signed_kinds. do 3 apply list_elem_of_further. apply list_elem_of_here.
  - vm_compute. discriminate.
Defined.

(** C4, as stated, fails at -24: the encoding has two bytes, not the single
    byte [37]. *)
Lemma encode_minus_24_counterexample :
  encode untagged_encoder (VInt (-24)) [0; 0] = Ok (2, [0x38; 0x17]) /\
  encode untagged_encoder (VInt (-24)) [0; 0] <> Ok (1, [0x37; 0]).
Proof. split; [reflexivity|discriminate]. Qed.

(** ** The dispatch table *)

(** A property of the table entries of the header bytes [mt + i], [i] in a
    range, from a lookup for each of them. *)
Ltac table_range :=
  intros;
  match goal with
  | H : ?lo <= ?i < ?hi |- _ =>
      let Hin := fresh "Hin" in
      assert (Hin : i ∈ seqZ lo (hi - lo)) by (apply elem_of_seqZ; lia);
      clear H; revert i Hin
  end;
  apply Forall_forall;
  match goal with
  | |- Forall _ ?l => let l' := eval vm_compute in l in change l with l'
  end;
  repeat (apply Forall_cons; split; [reflexivity|]);
  apply Forall_nil_2.

Section TableLookup.

Variable decodeTag : decoder -> decoder.
Variable dec : decoder.
Variable fuel : nat.

Local Abbreviation table := (cborDecoders decodeTag dec fuel).

Lemma table_type0_small i :
  0 <= i < 24 -> table !! (type0 + i) = Some decodeType0SmallInt.
Proof. table_range. Qed.

Lemma table_type0_info24 : table !! (type0 + info24) = Some decodeType0Info24.
Proof. reflexivity. Qed.
Lemma table_type0_info25 : table !! (type0 + info25) = Some decodeType0Info25.
Proof. reflexivity. Qed.
Lemma table_type0_info26 : table !! (type0 + info26) = Some decodeType0Info26.
Proof. reflexivity. Qed.
Lemma table_type0_info27 : table !! (type0 + info27) = Some decodeType0Info27.
Proof. reflexivity. Qed.

Lemma table_type1_small i :
  0 <= i < 24 -> table !! (type1 + i) = Some decodeType1SmallInt.
Proof. table_range. Qed.

Lemma table_type1_info24 : table !! (type1 + info24) = Some decodeType1Info24.
Proof. reflexivity. Qed.
Lemma table_type1_info25 : table !! (type1 + info25) = Some decodeType1Info25.
Proof. reflexivity. Qed.
Lemma table_type1_info26 : table !! (type1 + info26) = Some decodeType1Info26.
Proof. reflexivity. Qed.
Lemma table_type1_info27 : table !! (type1 + info27) = Some decodeType1Info27.
Proof. reflexivity. Qed.

Lemma table_type2 i : 0 <= i < 28 -> table !! (type2 + i) = Some decodeType2.
Proof. table_range. Qed.

Lemma table_type3 i : 0 <= i < 28 -> table !! (type3 + i) = Some decodeType3.
Proof. table_range. Qed.

Lemma table_type4 i :
  0 <= i < 28 -> table !! (type4 + i) = Some (decodeType4 dec fuel).
Proof. table_range. Qed.

Lemma table_type5 i :
  0 <= i < 28 -> table !! (type5 + i) = Some (decodeType5 dec fuel).
Proof. table_range. Qed.

Lemma table_type6 i :
  0 <= i < 28 -> table !! (type6 + i) = Some (decodeTag dec).
Proof. table_range. Qed.

Lemma table_type2_indefinite : table !! 0x5F = Some decodeType2Indefinite.
Proof. reflexivity. Qed.
Lemma table_type3_indefinite : table !! 0x7F = Some decodeType3Indefinite.
Proof. reflexivity. Qed.
Lemma table_type4_indefinite : table !! 0x9F = Some decodeType4Indefinite.
Proof. reflexivity. Qed.
Lemma table_type5_indefinite : table !! 0xBF = Some decodeType5Indefinite.
Proof. reflexivity. Qed.

Lemma table_false : table !! 0xF4 = Some decodeFalse.
Proof. reflexivity. Qed.
Lemma table_true : table !! 0xF5 = Some decodeTrue.
Proof. reflexivity. Qed.
Lemma table_null : table !! 0xF6 = Some decodeNull.
Proof. reflexivity. Qed.
Lemma table_undefined : table !! 0xF7 = Some decodeUndefined.
Proof. reflexivity. Qed.
Lemma table_float32 : table !! 0xFA = Some decodeFloat32.
Proof. reflexivity. Qed.
Lemma table_float64 : table !! 0xFB = Some decodeFloat64.
Proof. reflexivity. Qed.

(** The reserved info values 28, 29 and 30. *)
Lemma table_reserved mt i :
  0 <= mt < 7 -> 28 <= i < 31 ->
  table !! hdr (Z.shiftl mt 5) i = Some (makePanic ErrorDecodeInfoReserved).
Proof.
  intros Hmt. revert i.
  assert (Hin : mt ∈ seqZ 0 7) by (apply elem_of_seqZ; lia).
  clear Hmt. revert mt Hin.
  apply (Forall_forall (fun mt => forall i, 28 <= i < 31 -> _)).
  repeat (apply Forall_cons; split; [table_range|]).
  apply Forall_nil_2.
Qed.

Lemma table_reserved_simple i :
  28 <= i < 31 ->
  table !! hdr (Z.shiftl 7 5) i = Some (makePanic ErrorDecodeSimpleType).
Proof. table_range. Qed.

(** Info 31 where no indefinite length exists. *)
Lemma table_no_indefinite mt :
  mt ∈ [0; 1; 6] ->
  table !! hdr (Z.shiftl mt 5) 31 = Some (makePanic ErrorDecodeIndefinite).
Proof.
  revert mt. apply Forall_forall.
  repeat (apply Forall_cons; split; [reflexivity|]).
  apply Forall_nil_2.
Qed.

End TableLookup.

(** [decode] on an input with a first byte. *)
Lemma decode_cons (decodeTag : decoder -> decoder) (b : Z) (rest : list Z) :
  decode decodeTag (b :: rest) =
  decode_body decodeTag (decode_rec decodeTag (S (length rest)))
    (S (length rest)) (b :: rest).
Proof. reflexivity. Qed.

(** [decode] where the handler of the first byte returns no sentinel. *)
Lemma decode_body_plain (decodeTag : decoder -> decoder) (dec : decoder)
    (fuel : nat) (b : Z) (rest : list Z) (handler : decoder) (r : result (Value * Z)) :
  cborDecoders decodeTag dec fuel !! b = Some handler ->
  handler (b :: rest) = r ->
  match r with Ok (VIndefinite _, _) => False | _ => True end ->
  decode_body decodeTag dec fuel (b :: rest) = r.
Proof.
  intros Hb Hh Hr. unfold decode_body. rewrite load_head. cbn [bind].
  rewrite Hb, Hh. destruct r as [[item n]| |]; try reflexivity.
  cbn [bind]. destruct item; try reflexivity. contradiction.
Qed.

(** ** Headers that do not decode, and the headers of indefinite strings *)

(** C8.  A header byte with info 28, 29 or 30 makes [decode] fail, with
    [ErrorDecodeInfoReserved] under the major types 0 to 6 and with
    [ErrorDecodeSimpleType] under major type 7; a header byte with info 31
    under the major types 0, 1 and 6 makes it fail with
    [ErrorDecodeIndefinite].  Whatever follows the header byte, no value
    is decoded. *)
Theorem decode_reserved_info :
  forall (decodeTag : decoder -> decoder) (mt inf : Z) (rest : list Z),
    0 <= mt <= 7 ->
    (28 <= inf <= 30 \/ (inf = 31 /\ mt ∈ [0; 1; 6])) ->
    decode decodeTag (hdr (Z.shiftl mt 5) inf :: rest) =
      Panic (if inf =? 31 then ErrorDecodeIndefinite
             else if mt =? 7 then ErrorDecodeSimpleType
             else ErrorDecodeInfoReserved).
Proof.
  intros decodeTag mt inf rest Hmt [Hinf|[-> Hin]]; rewrite decode_cons.
  - replace (inf =? 31) with false by lia.
    destruct (Z.eqb_spec mt 7) as [->|Hne].
    + eapply decode_body_plain;
        [apply table_reserved_simple; lia|reflexivity|exact I].
    + eapply decode_body_plain; [apply table_reserved; lia|reflexivity|exact I].
  - eapply decode_body_plain;
      [apply table_no_indefinite; exact Hin|reflexivity|exact I].
Qed.

Lemma decode_reserved_info_witness :
  decode untagged_decoder [0x9C; 0x01] = Panic ErrorDecodeInfoReserved.
Proof.
  refine (decode_reserved_info untagged_decoder 4 28 [0x01] _ _).
  - lia.
  - left. lia.
Defined.

(** The result of a loop satisfies what every value the body returns
    satisfies. *)
Lemma loop_result {S R : Type} (P : R -> Prop) (body : S -> result (S + R)) :
  (forall s r, body s = Ok (inr r) -> P r) ->
  forall fuel s r, loop fuel body s = Ok r -> P r.
Proof.
  intros Hbody fuel. induction fuel as [|fuel IH]; intros s r; [discriminate|].
  rewrite loop_unfold.
  destruct (body s) as [[s'|r']| |] eqn:Hs; try discriminate.
  - apply IH.
  - intros [= <-]. eapply Hbody, Hs.
Qed.


(** C3, at the greatest payload of the three narrow widths.  The decoders
    add 1 to the payload in the payload's own width before they widen it:
    the payloads 255, 65535 and 2^32 - 1 wrap to 0, and the decoded value is
    0 where major type 1 means -256, -65536 and -2^32. *)
Theorem decode_negative_payload_wraps :
  forall (decodeTag : decoder -> decoder) (rest : list Z),
    decode decodeTag (0x38 :: 0xFF :: rest) = Ok (VInt64 0, 2) /\
    decode decodeTag (0x39 :: 0xFF :: 0xFF :: rest) = Ok (VInt64 0, 3) /\
    decode decodeTag (0x3A :: 0xFF :: 0xFF :: 0xFF :: 0xFF :: rest) = Ok (VInt64 0, 5).
Proof.
  intros decodeTag rest. repeat apply conj; rewrite decode_cons.
  - eapply decode_body_plain; [apply table_type1_info24| |exact I].
    unfold decodeType1Info24. rewrite load_second.
    reflexivity.
  - eapply decode_body_plain; [apply table_type1_info25| |exact I].
    unfold decodeType1Info25, BigEndian.Uint16. rewrite slice_from_tail.
    loads. reflexivity.
  - eapply decode_body_plain; [apply table_type1_info26| |exact I].
    unfold decodeType1Info26, BigEndian.Uint32. rewrite slice_from_tail.
    loads. reflexivity.
Qed.

(** ** The pointer engine on the documents of the specification *)

(** C9, at the text pointer "/~2".  A ['~'] that neither ['0'] nor ['1']
    follows leaves the loop of [FromJsonPointer] in the same state: no
    amount of fuel lets the function return, on any output slice with room
    for the first byte. *)
Theorem FromJsonPointer_diverges :
  forall (fuel : nat) (b : Z) (out : list Z),
    FromJsonPointer fuel [Char.slash; Char.tilde; 50] (b :: out) = OutOfFuel.
Proof.
  intros fuel b out. unfold FromJsonPointer.
  change (0 <? len [Char.slash; Char.tilde; 50]) with true. cbv iota.
  rewrite load_head. cbn [bind].
  change (negb (Char.slash =? Char.slash)) with false. cbv iota. cbn [bind].
  unfold encodeTextStart. rewrite store_head. cbn [bind].
  destruct fuel as [|fuel]; [reflexivity|].
  rewrite loop_unfold.
  change (FromJsonPointer_step [Char.slash; Char.tilde; 50]
            (0, 0, 1, replicate (Z.to_nat maxPartSize) 0,
             hdr type3 (uint8 indefiniteLength) :: out))
    with (@Ok ((Z * Z * Z * list Z * list Z) + (Z * Z * list Z * list Z))
            (inl (1, 0, 1, replicate (Z.to_nat maxPartSize) 0,
                  hdr type3 (uint8 indefiniteLength) :: out))).
  cbv iota. rewrite loop_stuck by reflexivity. reflexivity.
Qed.

(** The same defect in [ToJsonPointer]: a byte after the header that is
    neither a segment tag nor the break-stop is never passed. *)
Lemma ToJsonPointer_diverges :
  forall (fuel : nat) (out : list Z),
    ToJsonPointer fuel [0x7F; 0x00; 0xFF] out = OutOfFuel.
Proof.
  intros fuel out. unfold ToJsonPointer. rewrite load_head. cbn [bind].
  change (negb (IsIndefiniteText 127)) with false. cbv iota.
  apply loop_stuck. reflexivity.
Qed.

(** C5, on the document [9F 01 02 03 FF] and the text pointer "/1".  The
    CBOR pointer is [7F D8 21 61 31 FF]; [lookup] returns the range (1, 2)
    and [get] the byte [01], the item of index 0: [arrayIndex] counts its
    offset from [doc[1:]] and [partial] uses it as an offset into [doc]. *)
Theorem get_array_item_off_by_one :
  forall (k : nat),
    FromJsonPointer (3 + k) [Char.slash; Char.one] (replicate 6 0)
      = Ok (6, [0x7F; 0xD8; 0x21; 0x61; 0x31; 0xFF]) /\
    lookup (2 + k) [0x7F; 0xD8; 0x21; 0x61; 0x31; 0xFF] [0x9F; 0x01; 0x02; 0x03; 0xFF]
      = Ok (1, 2) /\
    get (2 + k) [0x9F; 0x01; 0x02; 0x03; 0xFF] [0x7F; 0xD8; 0x21; 0x61; 0x31; 0xFF]
      = Ok [0x01].
Proof. intros k. repeat apply conj; vm_compute; reflexivity. Qed.

(** C6, on the same document and pointer, with the item [05] and an output
    slice of five bytes.  The three [copy] calls of [set] all write at the
    front of [out]: what is left is the tail [02 03 FF] of the document
    over the item, not the splice [9F 05 02 03 FF] of the range (1, 2)
    that [lookup] returns. *)
Theorem set_overwrites_front :
  forall (k : nat),
    set (2 + k) [0x9F; 0x01; 0x02; 0x03; 0xFF] [0x7F; 0xD8; 0x21; 0x61; 0x31; 0xFF]
        [0x05] (replicate 5 0)
      = Ok [0x02; 0x03; 0xFF; 0x00; 0x00] /\
    lookup (2 + k) [0x7F; 0xD8; 0x21; 0x61; 0x31; 0xFF] [0x9F; 0x01; 0x02; 0x03; 0xFF]
      = Ok (1, 2) /\
    take 1 [0x9F; 0x01; 0x02; 0x03; 0xFF] ++ [0x05] ++ drop 2 [0x9F; 0x01; 0x02; 0x03; 0xFF]
      = [0x9F; 0x05; 0x02; 0x03; 0xFF].
Proof. intros k. repeat apply conj; vm_compute; reflexivity. Qed.

(** ** Reading big-endian payloads *)

Lemma lor_shiftl_add (a b k : Z) :
  0 <= k -> 0 <= a < 2 ^ k -> Z.lor a (Z.shiftl b k) = a + b * 2 ^ k.
Proof.
  intros Hk Ha.
  assert (Hland : Z.land a (Z.shiftl b k) = 0).
  { apply Z.bits_inj'. intros n Hn. rewrite Z.land_spec, Z.bits_0.
    destruct (Z.lt_ge_cases n k) as [Hlt|Hge].
    - rewrite Z.shiftl_spec_low by lia. apply andb_false_r.
    - replace (Z.testbit a n) with false; [reflexivity|].
      symmetry. destruct (Z.eq_dec a 0) as [->|Hne]; [apply Z.bits_0|].
      apply Z.bits_above_log2; [lia|].
      apply Z.log2_lt_pow2; [lia|].
      apply Z.lt_le_trans with (2 ^ k); [lia|].
      apply Z.pow_le_mono_r; lia. }
  rewrite <- Z.lxor_lor by exact Hland.
  rewrite <- Z.add_nocarry_lxor by exact Hland.
  now rewrite Z.shiftl_mul_pow2.
Qed.

(** The powers of 256 of a goal, computed. *)
Ltac powers :=
  repeat match goal with
         | |- context [256 ^ Z.of_nat ?k] =>
             let c := eval vm_compute in (256 ^ Z.of_nat k) in
             change (256 ^ Z.of_nat k) with c
         end.

Lemma Uint16_big_endian (v : Z) (rest : list Z) :
  0 <= v < 2 ^ 16 -> BigEndian.Uint16 (big_endian 2 v ++ rest) = Ok v.
Proof.
  intros Hv. unfold BigEndian.Uint16. cbn [big_endian app]. loads.
  f_equal. rewrite lor_shiftl_add by lia. powers. lia.
Qed.

Lemma Uint32_big_endian (v : Z) (rest : list Z) :
  0 <= v < 2 ^ 32 -> BigEndian.Uint32 (big_endian 4 v ++ rest) = Ok v.
Proof.
  intros Hv. unfold BigEndian.Uint32. cbn [big_endian app]. loads.
  f_equal. powers.
  rewrite (lor_shiftl_add _ _ 8) by lia.
  rewrite (lor_shiftl_add _ _ 16) by lia.
  rewrite (lor_shiftl_add _ _ 24) by lia.
  powers. lia.
Qed.

Lemma Uint64_big_endian (v : Z) (rest : list Z) :
  0 <= v < 2 ^ 64 -> BigEndian.Uint64 (big_endian 8 v ++ rest) = Ok v.
Proof.
  intros Hv. unfold BigEndian.Uint64. cbn [big_endian app]. loads.
  f_equal. powers.
  rewrite (lor_shiftl_add _ _ 8) by lia.
  rewrite (lor_shiftl_add _ _ 16) by lia.
  rewrite (lor_shiftl_add _ _ 24) by lia.
  rewrite (lor_shiftl_add _ _ 32) by lia.
  rewrite (lor_shiftl_add _ _ 40) by lia.
  rewrite (lor_shiftl_add _ _ 48) by lia.
  rewrite (lor_shiftl_add _ _ 56) by lia.
  powers. lia.
Qed.

(** ** What [encode] writes *)

Lemma overwrite_nil (out : list Z) : overwrite [] out = out.
Proof. reflexivity. Qed.

Lemma overwrite_app (a c out : list Z) :
  overwrite (a ++ c) out = a ++ overwrite c (drop (length a) out).
Proof.
  unfold overwrite. rewrite <- app_assoc. do 2 f_equal.
  rewrite length_app, drop_drop. reflexivity.
Qed.

Lemma within_overwrite {A : Type} (a c out : list Z) (n : Z) (k : A)
    (f : list Z -> result (A * list Z)) :
  n = len a ->
  f (drop (length a) out) = Ok (k, overwrite c (drop (length a) out)) ->
  within (overwrite a out) n f = Ok (k, overwrite (a ++ c) out).
Proof.
  intros -> Hf. rewrite overwrite_app. unfold overwrite at 1.
  now apply within_ok.
Qed.

Lemma copy_overwrite (dst src : list Z) :
  len src <= len dst -> copy dst src = (len src, overwrite src dst).
Proof.
  intros H. unfold copy, overwrite, len in *.
  replace (Nat.min (length dst) (length src)) with (length src) by lia.
  now rewrite firstn_all.
Qed.

Lemma retag_any (mt' mt i : Z) :
  mt' ∈ major_types -> mt ∈ major_types -> 0 <= i < 32 ->
  Z.lor (Z.land (mt' + i) 31) mt = mt + i.
Proof.
  intros Hmt' Hmt Hi.
  assert (Hin : i ∈ seqZ 0 32) by (apply elem_of_seqZ; lia).
  revert i Hin Hi.
  apply (Forall_forall (fun i => _ -> Z.lor (Z.land (mt' + i) 31) mt = mt + i)).
  revert mt Hmt. apply Forall_forall.
  revert mt' Hmt'. apply Forall_forall.
  compute_done.
Qed.

(** The first byte of a header under one major type, replaced by the same
    info bits under another. *)
Lemma retag_head (mt' mt L : Z) (tl out : list Z) :
  mt' ∈ major_types -> mt ∈ major_types -> 0 <= L ->
  len (head mt' L ++ tl) <= len out ->
  exists b0,
    load (overwrite (head mt' L ++ tl) out) 0 = Ok b0 /\
    store (overwrite (head mt' L ++ tl) out) 0 (Z.lor (Z.land b0 31) mt)
    = Ok (overwrite (head mt L ++ tl) out).
Proof.
  intros Hmt' Hmt HL. unfold head, info24, info25, info26, info27.
  by_range; intros Hlen;
    (destruct out as [|x0 out]; [len_solve|]);
    cbn [app]; rewrite !overwrite_cons; eexists;
    (split; [apply load_head|]);
    rewrite store_head, retag_any by (assumption || lia); reflexivity.
Qed.

Lemma encodeBytes_ok (item out : list Z) :
  len item < 2 ^ 63 ->
  len (head type2 (len item) ++ item) <= len out ->
  encodeBytes item out
  = Ok (len (head type2 (len item) ++ item),
        overwrite (head type2 (len item) ++ item) out).
Proof.
  intros Hitem Hlen. unfold encodeBytes.
  pose proof (len_nonneg item) as Hnn.
  autorewrite with len in Hlen. rewrite head_length in Hlen.
  rewrite uint64_small by lia.
  rewrite encodeUint64_ok by lia. cbn [bind].
  destruct (retag_head type0 type2 (len item) [] out) as (b0 & Hb0 & Hst);
    [auto with cbor..|lia|rewrite app_nil_r, head_length; lia|].
  rewrite !app_nil_r in *. rewrite Hb0. cbn [bind]. rewrite Hst. cbn [bind].
  erewrite within_overwrite;
    [|symmetry; apply head_length|rewrite copy_overwrite; [reflexivity|]].
  - cbn [bind]. autorewrite with len. rewrite head_length. reflexivity.
  - pose proof (head_length type2 (len item)). len_solve.
Qed.

Lemma encodeText_ok (item out : list Z) :
  len item < 2 ^ 63 ->
  len (head type3 (len item) ++ item) <= len out ->
  encodeText item out
  = Ok (len (head type3 (len item) ++ item),
        overwrite (head type3 (len item) ++ item) out).
Proof.
  intros Hitem Hlen. unfold encodeText.
  pose proof (len_nonneg item) as Hnn.
  assert (Hl : len (head type2 (len item) ++ item) = len (head type3 (len item) ++ item))
    by (autorewrite with len; now rewrite !head_length).
  rewrite encodeBytes_ok by lia. cbn [bind].
  destruct (retag_head type2 type3 (len item) item out) as (b0 & Hb0 & Hst);
    [auto with cbor..|lia|lia|].
  rewrite Hb0. cbn [bind]. rewrite Hst. cbn [bind]. now rewrite Hl.
Qed.

(** The bounds that [supported] checks. *)
Ltac bounds :=
  repeat match goal with
         | H : in_range _ _ _ = true |- _ =>
             unfold in_range in H; apply andb_true_iff in H as [? ?]
         | H : _ && _ = true |- _ => apply andb_true_iff in H as [? ?]
         | H : (_ <=? _) = true |- _ => apply Z.leb_le in H
         | H : (_ <? _) = true |- _ => apply Z.ltb_lt in H
         end.

Section EncodeOk.

Variable encodeTagged : TaggedKind -> list Z -> list Z -> result (Z * list Z).

Local Abbreviation writes := (writes encodeTagged).

Lemma encodeArrayItems_from_ok (items : list Value) :
  list_all Value writes items ->
  forallb supported items = true ->
  forall done out,
    len (done ++ flat_map encoding items) <= len out ->
    encodeArrayItems_from (encode encodeTagged) items (len done) (overwrite done out)
    = Ok (len (done ++ flat_map encoding items),
          overwrite (done ++ flat_map encoding items) out).
Proof.
  induction 1 as [|v Hv items Hitems IH]; intros Hsup done out Hlen.
  - cbn [flat_map encodeArrayItems_from]. rewrite app_nil_r. reflexivity.
  - cbn [flat_map forallb encodeArrayItems_from] in *.
    apply andb_true_iff in Hsup as [Hsv Hsup].
    rewrite (within_overwrite done (encoding v) out _ (len (encoding v)));
      [|reflexivity|apply Hv; [exact Hsv|len_solve]].
    cbn [bind].
    replace (len done + len (encoding v)) with (len (done ++ encoding v))
      by (now autorewrite with len).
    rewrite IH by (rewrite <- ?app_assoc; assumption).
    now rewrite <- app_assoc.
Qed.

Lemma encodeMapItems_from_ok (items : list (Value * Value)) :
  list_all (Value * Value) (prod_all Value writes Value writes) items ->
  forallb (fun kv => supported (fst kv) && supported (snd kv)) items = true ->
  forall done out,
    len (done ++ flat_map (fun kv => encoding (fst kv) ++ encoding (snd kv)) items)
      <= len out ->
    encodeMapItems_from (encode encodeTagged) items (len done) (overwrite done out)
    = Ok (len (done ++ flat_map (fun kv => encoding (fst kv) ++ encoding (snd kv)) items),
          overwrite (done ++ flat_map (fun kv => encoding (fst kv) ++ encoding (snd kv)) items) out).
Proof.
  induction 1 as [|kv Hkv items Hitems IH]; intros Hsup done out Hlen.
  - cbn [flat_map encodeMapItems_from]. rewrite app_nil_r. reflexivity.
  - destruct Hkv as [key Hkey value Hvalue].
    cbn [flat_map forallb encodeMapItems_from fst snd] in *.
    apply andb_true_iff in Hsup as [Hskv Hsup].
    apply andb_true_iff in Hskv as [Hsk Hsv].
    rewrite <- app_assoc in Hlen.
    rewrite (within_overwrite done (encoding key) out _ (len (encoding key)));
      [|reflexivity|apply Hkey; [exact Hsk|len_solve]].
    cbn [bind].
    replace (len done + len (encoding key)) with (len (done ++ encoding key))
      by (now autorewrite with len).
    rewrite (within_overwrite (done ++ encoding key) (encoding value) out _
               (len (encoding value)));
      [|reflexivity|apply Hvalue; [exact Hsv|len_solve]].
    cbn [bind].
    replace (len (done ++ encoding key) + len (encoding value))
      with (len ((done ++ encoding key) ++ encoding value))
      by (now autorewrite with len).
    rewrite IH by (rewrite <- ?app_assoc; assumption).
    now rewrite <- !app_assoc.
Qed.

Lemma single_byte_ok (h k : Z) (out : list Z) :
  1 <= len out ->
  (buf <- store out 0 h ; Ok (k, buf)) = Ok (k, overwrite [h] out).
Proof.
  intros H. destruct out as [|x0 out]; [len_solve|].
  now rewrite store_head.
Qed.

Theorem encode_ok (v : Value) : writes v.
Proof.
  induction v as [| b | z | z | z | z | z | z | z | z | z | z | bits | bits
                  | s | s | items IH | items IH | b | b | b | k repr ];
    intros Hsup out Hlen; cbn [supported encoding encode] in *;
    try discriminate; bounds.
  - apply single_byte_ok. len_solve.
  - destruct b; apply single_byte_ok; len_solve.
  - apply encodeInt8_ok; [lia|exact Hlen].
  - rewrite head_length in *. apply encodeUint8_ok; [lia|exact Hlen].
  - apply encodeInt16_ok; [lia|exact Hlen].
  - rewrite head_length in *. apply encodeUint16_ok; [lia|exact Hlen].
  - apply encodeInt32_ok; [lia|exact Hlen].
  - rewrite head_length in *. apply encodeUint32_ok; [lia|exact Hlen].
  - rewrite int64_small by lia. apply encodeInt64_ok; [lia|exact Hlen].
  - apply encodeInt64_ok; [lia|exact Hlen].
  - rewrite head_length in *. rewrite uint64_small by lia.
    apply encodeUint64_ok; [lia|exact Hlen].
  - rewrite head_length in *. apply encodeUint64_ok; [lia|exact Hlen].
  - unfold encodeFloat32. apply header_then_payload; [len_solve|].
    intros b Hb. apply PutUint32_ok. len_solve.
  - unfold encodeFloat64. apply header_then_payload; [len_solve|].
    intros b Hb. apply PutUint64_ok. len_solve.
  - apply encodeBytes_ok; assumption.
  - apply encodeText_ok; assumption.
  - unfold encodeArray. pose proof (len_nonneg items) as Hnn.
    assert (Hroom : width (len items) <= len out)
      by (autorewrite with len in Hlen; rewrite head_length in Hlen;
          pose proof (len_nonneg (flat_map encoding items)); lia).
    rewrite uint64_small by lia.
    rewrite encodeUint64_ok by lia. cbn [bind].
    destruct (retag_head type0 type4 (len items) [] out) as (b0 & Hb0 & Hst);
      [auto with cbor..|lia|rewrite app_nil_r, head_length; lia|].
    rewrite !app_nil_r in *. rewrite Hb0. cbn [bind]. rewrite Hst. cbn [bind].
    erewrite within_overwrite; [|symmetry; apply head_length|].
    + cbn [bind]. rewrite <- (head_length type4 (len items)).
      autorewrite with len. reflexivity.
    + unfold encodeArrayItems.
      pose proof (encodeArrayItems_from_ok items IH H [] (drop (length (head type4 (len items))) out)) as Hitems.
      cbn [app] in Hitems. rewrite overwrite_nil in Hitems.
      apply Hitems. pose proof (head_length type4 (len items)). len_solve.
  - unfold encodeMap. pose proof (len_nonneg items) as Hnn.
    assert (Hroom : width (len items) <= len out)
      by (autorewrite with len in Hlen; rewrite head_length in Hlen;
          pose proof (len_nonneg (flat_map (fun kv => encoding (fst kv) ++ encoding (snd kv)) items)); lia).
    rewrite uint64_small by lia.
    rewrite encodeUint64_ok by lia. cbn [bind].
    destruct (retag_head type0 type5 (len items) [] out) as (b0 & Hb0 & Hst);
      [auto with cbor..|lia|rewrite app_nil_r, head_length; lia|].
    rewrite !app_nil_r in *. rewrite Hb0. cbn [bind]. rewrite Hst. cbn [bind].
    erewrite within_overwrite; [|symmetry; apply head_length|].
    + cbn [bind]. rewrite <- (head_length type5 (len items)).
      autorewrite with len. reflexivity.
    + unfold encodeMapItems.
      pose proof (encodeMapItems_from_ok items IH H [] (drop (length (head type5 (len items))) out)) as Hitems.
      cbn [app] in Hitems. rewrite overwrite_nil in Hitems.
      apply Hitems. pose proof (head_length type5 (len items)). len_solve.
  - apply single_byte_ok. len_solve.
Qed.

End EncodeOk.

(** ** What [decode] reads *)

Lemma big_endian_1 (z : Z) : 0 <= z < 256 -> big_endian 1 z = [z].
Proof.
  intros Hz. cbn [big_endian]. powers. f_equal. lia.
Qed.

Lemma decodeLength_head (mt L : Z) (rest : list Z) :
  mt ∈ major_types -> 0 <= L < 2 ^ 63 ->
  decodeLength (head mt L ++ rest) = Ok (L, width L).
Proof.
  intros Hmt HL. unfold decodeLength, head, width, info24, info25, info26, info27.
  by_range; cbn [app]; rewrite load_head; cbn [bind];
    rewrite info_hdr by (assumption || lia);
    by_range; try (replace (L =? 24) with false by lia);
    cbn [Z.eqb Pos.eqb]; cbv iota.
  - now rewrite int64_small by lia.
  - rewrite big_endian_1 by lia. cbn [app]. rewrite load_second. cbn [bind].
    now rewrite int64_small by lia.
  - rewrite slice_from_tail. cbn [bind].
    rewrite Uint16_big_endian by lia. cbn [bind].
    now rewrite int64_small by lia.
  - rewrite slice_from_tail. cbn [bind].
    rewrite Uint32_big_endian by lia. cbn [bind].
    now rewrite int64_small by lia.
  - rewrite slice_from_tail. cbn [bind].
    rewrite Uint64_big_endian by lia. cbn [bind].
    now rewrite int64_small by lia.
Qed.

Section DecodeOk.

Variable decodeTag : decoder -> decoder.
Variable dec : decoder.
Variable fuel : nat.

Lemma decode_body_uint (z : Z) (rest : list Z) :
  0 <= z < 2 ^ 64 ->
  decode_body decodeTag dec fuel (head type0 z ++ rest) = Ok (VUint64 z, width z).
Proof.
  intros Hz. unfold head, width. by_range; cbn [app].
  - eapply decode_body_plain; [apply table_type0_small; lia| |exact I].
    unfold decodeType0SmallInt. rewrite load_head. cbn [bind].
    rewrite info_hdr by (auto with cbor; lia).
    now rewrite uint64_small by lia.
  - eapply decode_body_plain; [apply table_type0_info24| |exact I].
    unfold decodeType0Info24. rewrite big_endian_1 by lia. cbn [app].
    rewrite load_second. cbn [bind]. now rewrite uint64_small by lia.
  - eapply decode_body_plain; [apply table_type0_info25| |exact I].
    unfold decodeType0Info25. rewrite slice_from_tail. cbn [bind].
    rewrite Uint16_big_endian by lia. cbn [bind].
    now rewrite uint64_small by lia.
  - eapply decode_body_plain; [apply table_type0_info26| |exact I].
    unfold decodeType0Info26. rewrite slice_from_tail. cbn [bind].
    rewrite Uint32_big_endian by lia. cbn [bind].
    now rewrite uint64_small by lia.
  - eapply decode_body_plain; [apply table_type0_info27| |exact I].
    unfold decodeType0Info27. rewrite slice_from_tail. cbn [bind].
    rewrite Uint64_big_endian by lia. cbn [bind].
    now rewrite uint64_small by lia.
Qed.

Lemma decode_body_negative (z : Z) (rest : list Z) :
  - 2 ^ 63 <= z < 0 ->
  decode_body decodeTag dec fuel (neg_head z ++ rest)
  = Ok (VInt64 z, len (neg_head z)).
Proof.
  intros Hz. unfold neg_head. by_range; cbn [app].
  - eapply decode_body_plain; [apply table_type1_small; lia| |exact I].
    unfold decodeType1SmallInt. rewrite load_head. cbn [bind].
    rewrite info_hdr by (auto with cbor; lia).
    rewrite uint8_small, (int64_small (_ + 1)), int64_small by lia.
    do 2 f_equal. f_equal. lia.
  - eapply decode_body_plain; [apply table_type1_info24| |exact I].
    unfold decodeType1Info24. rewrite big_endian_1 by lia. cbn [app].
    rewrite load_second. cbn [bind].
    rewrite uint8_small, (int64_small (_ + 1)), int64_small by lia.
    do 2 f_equal. f_equal. lia.
  - eapply decode_body_plain; [apply table_type1_info25| |exact I].
    unfold decodeType1Info25. rewrite slice_from_tail. cbn [bind].
    rewrite Uint16_big_endian by lia. cbn [bind].
    rewrite uint16_small, (int64_small (_ + 1)), int64_small by lia.
    do 2 f_equal. f_equal. lia.
  - eapply decode_body_plain; [apply table_type1_info26| |exact I].
    unfold decodeType1Info26. rewrite slice_from_tail. cbn [bind].
    rewrite Uint32_big_endian by lia. cbn [bind].
    rewrite uint32_small, (int64_small (_ + 1)), int64_small by lia.
    do 2 f_equal. f_equal. lia.
  - eapply decode_body_plain; [apply table_type1_info27| | ].
    + unfold decodeType1Info27. rewrite slice_from_tail. cbn [bind].
      rewrite Uint64_big_endian by lia. cbn [bind].
      rewrite (uint64_small (- (z + 1))) by lia.
      replace (- (z + 1) >? 9223372036854775807) with false by lia.
      replace (uint64 (- - (z + 1))) with (18446744073709551616 + (z + 1))
        by (unfold uint64, unsigned; change (2 ^ 64) with 18446744073709551616; lia).
      replace (int64 (18446744073709551616 + (z + 1))) with (z + 1)
        by (unfold int64, signed; change (2 ^ 64) with 18446744073709551616;
            change (2 ^ (64 - 1)) with 9223372036854775808; lia).
      rewrite int64_small by lia.
      replace (z + 1 - 1) with z by lia. reflexivity.
    + exact I.
Qed.

Lemma decode_body_int (z : Z) (rest : list Z) :
  - 2 ^ 63 <= z < 2 ^ 63 ->
  decode_body decodeTag dec fuel (int_bytes z ++ rest)
  = Ok ((if z <? 0 then VInt64 z else VUint64 z), len (int_bytes z)).
Proof.
  intros Hz. unfold int_bytes. destruct (Z.ltb_spec z 0).
  - apply decode_body_negative. lia.
  - rewrite head_length. apply decode_body_uint. lia.
Qed.

Lemma copy_into_made (s : list Z) :
  copy (replicate (length s) 0) s = (len s, s).
Proof.
  rewrite copy_overwrite by len_solve. unfold overwrite.
  rewrite drop_ge by (rewrite length_replicate; lia).
  now rewrite app_nil_r.
Qed.

Lemma decode_body_bytes (s rest : list Z) :
  len (head type2 (len s) ++ s ++ rest) < 2 ^ 63 ->
  decode_body decodeTag dec fuel (head type2 (len s) ++ s ++ rest)
  = Ok (VBytes s, len (head type2 (len s) ++ s)).
Proof.
  intros Hlen. pose proof (len_nonneg s) as Hs. pose proof (len_nonneg rest) as Hr.
  pose proof (width_bounds (len s)) as Hw.
  autorewrite with len in Hlen. rewrite head_length in Hlen.
  assert (Hhd : exists i, 0 <= i < 28 /\ exists tl, head type2 (len s) = (type2 + i) :: tl).
  { unfold head, info24, info25, info26, info27.
    by_range; eexists; (split; [|eexists; reflexivity]); lia. }
  destruct Hhd as (i & Hi & tl & Hhd).
  rewrite Hhd. cbn [app].
  eapply decode_body_plain; [apply table_type2; exact Hi| |exact I].
  change ((type2 + i) :: tl ++ s ++ rest) with (((type2 + i) :: tl) ++ s ++ rest).
  rewrite <- Hhd. unfold decodeType2.
  rewrite decodeLength_head by (auto with cbor; lia). cbn [bind].
  unfold make. replace (len s <? 0) with false by lia. cbn [bind].
  rewrite add_small by lia.
  rewrite (slice_app (head type2 (len s)) s rest)
    by (rewrite ?head_length; reflexivity).
  cbn [bind]. unfold len at 1. rewrite Nat2Z.id, copy_into_made.
  change ((type2 + i) :: tl ++ s) with (((type2 + i) :: tl) ++ s).
  rewrite <- Hhd. autorewrite with len. now rewrite head_length.
Qed.

Lemma decode_body_text (s rest : list Z) :
  len (head type3 (len s) ++ s ++ rest) < 2 ^ 63 ->
  decode_body decodeTag dec fuel (head type3 (len s) ++ s ++ rest)
  = Ok (VString s, len (head type3 (len s) ++ s)).
Proof.
  intros Hlen. pose proof (len_nonneg s) as Hs. pose proof (len_nonneg rest) as Hr.
  pose proof (width_bounds (len s)) as Hw.
  autorewrite with len in Hlen. rewrite head_length in Hlen.
  assert (Hhd : exists i, 0 <= i < 28 /\ exists tl, head type3 (len s) = (type3 + i) :: tl).
  { unfold head, info24, info25, info26, info27.
    by_range; eexists; (split; [|eexists; reflexivity]); lia. }
  destruct Hhd as (i & Hi & tl & Hhd).
  rewrite Hhd. cbn [app].
  eapply decode_body_plain; [apply table_type3; exact Hi| |exact I].
  change ((type3 + i) :: tl ++ s ++ rest) with (((type3 + i) :: tl) ++ s ++ rest).
  rewrite <- Hhd. unfold decodeType3.
  rewrite decodeLength_head by (auto with cbor; lia). cbn [bind].
  unfold make. replace (len s <? 0) with false by lia. cbn [bind].
  rewrite add_small by lia.
  rewrite (slice_app (head type3 (len s)) s rest)
    by (rewrite ?head_length; reflexivity).
  cbn [bind]. unfold len at 1. rewrite Nat2Z.id, copy_into_made.
  change ((type3 + i) :: tl ++ s) with (((type3 + i) :: tl) ++ s).
  rewrite <- Hhd. autorewrite with len. now rewrite head_length.
Qed.

Lemma decode_body_float32 (bits : Z) (rest : list Z) :
  0 <= bits < 2 ^ 32 ->
  decode_body decodeTag dec fuel ((type7 + flt32) :: big_endian 4 bits ++ rest)
  = Ok (VFloat32 bits, 5).
Proof.
  intros Hb. eapply decode_body_plain; [apply table_float32| |exact I].
  unfold decodeFloat32. rewrite slice_from_tail. cbn [bind].
  now rewrite Uint32_big_endian by lia.
Qed.

Lemma decode_body_float64 (bits : Z) (rest : list Z) :
  0 <= bits < 2 ^ 64 ->
  decode_body decodeTag dec fuel ((type7 + flt64) :: big_endian 8 bits ++ rest)
  = Ok (VFloat64 bits, 9).
Proof.
  intros Hb. eapply decode_body_plain; [apply table_float64| |exact I].
  unfold decodeFloat64. rewrite slice_from_tail. cbn [bind].
  now rewrite Uint64_big_endian by lia.
Qed.

End DecodeOk.

Lemma int_bytes_nonempty (z : Z) : (1 <= length (int_bytes z))%nat.
Proof.
  unfold int_bytes, neg_head, head. by_range; cbn [length]; lia.
Qed.

Lemma head_nonempty (mt n : Z) : (1 <= length (head mt n))%nat.
Proof. unfold head. by_range; cbn [length]; lia. Qed.

Lemma encoding_nonempty (v : Value) :
  supported v = true -> (1 <= length (encoding v))%nat.
Proof.
  destruct v as [| [|] | | | | | | | | | | | | | | | | | | | | ];
    cbn [supported encoding]; try discriminate; intros _;
    rewrite ?length_app;
    try (pose proof (head_nonempty type0 z));
    try (pose proof (head_nonempty type2 (len s)));
    try (pose proof (head_nonempty type3 (len s)));
    try (pose proof (head_nonempty type4 (len items)));
    try (pose proof (head_nonempty type5 (len items)));
    try (pose proof (int_bytes_nonempty z));
    cbn [length]; lia.
Qed.

Lemma flat_encoding_length (items : list Value) :
  forallb supported items = true ->
  (length items <= length (flat_map encoding items))%nat.
Proof.
  induction items as [|v items IH]; cbn [forallb flat_map length]; [lia|].
  intros [Hv Hitems]%andb_true_iff. rewrite length_app.
  pose proof (encoding_nonempty v Hv). specialize (IH Hitems). lia.
Qed.

Lemma decodeType4_loop (decodeTag : decoder -> decoder) (f : nat) (rem : list Value) :
  list_all Value (reads decodeTag) rem ->
  forallb supported rem = true ->
  (length (flat_map encoding rem) < f)%nat ->
  forall (fuel : nat) (done : list Value) (pre rest : list Z),
    (length rem < fuel)%nat ->
    len (pre ++ flat_map encoding rem ++ rest) < 2 ^ 63 ->
    loop fuel
      (decodeType4_step (decode_rec decodeTag f)
         (pre ++ flat_map encoding rem ++ rest) (len done + len rem))
      (len done, len pre, map canon done ++ replicate (length rem) VNil)
    = Ok (VArray (map canon (done ++ rem)), len (pre ++ flat_map encoding rem)).
Proof.
  induction 1 as [|v Hv rem Hrem IH]; intros Hsup Hf fuel done pre rest Hfuel Hlen;
    (destruct fuel as [|fuel]; [cbn [length] in Hfuel; lia|]).
  - apply loop_break. unfold decodeType4_step.
    replace (len done <? len done + len []) with false by len_solve.
    cbn [flat_map replicate length]. now rewrite !app_nil_r.
  - cbn [flat_map forallb length] in *.
    apply andb_true_iff in Hsup as [Hsv Hsup].
    rewrite length_app in Hf.
    erewrite loop_continue; cycle 1.
    { unfold decodeType4_step.
      replace (len done <? len done + len (v :: rem)) with true by len_solve.
      rewrite slice_from_app by reflexivity. cbn [bind].
      rewrite <- app_assoc.
      rewrite Hv; [|exact Hsv|lia|].
      2: { autorewrite with len in *. pose proof (len_nonneg pre). lia. }
      cbn [bind replicate].
      rewrite store_app by (unfold len; now rewrite length_map).
      cbn [bind]. rewrite add_small; [reflexivity|].
      autorewrite with len in *. pose proof (len_nonneg pre).
      pose proof (len_nonneg (encoding v)).
      pose proof (len_nonneg (flat_map encoding rem)).
      pose proof (len_nonneg rest). lia. }
    replace (pre ++ (encoding v ++ flat_map encoding rem) ++ rest)
      with ((pre ++ encoding v) ++ flat_map encoding rem ++ rest)
      by (now rewrite <- !app_assoc).
    replace (len done + len (v :: rem)) with (len (done ++ [v]) + len rem)
      by len_solve.
    replace (len done + 1) with (len (done ++ [v])) by len_solve.
    replace (len pre + len (encoding v)) with (len (pre ++ encoding v))
      by len_solve.
    replace (map canon done ++ canon v :: replicate (length rem) VNil)
      with (map canon (done ++ [v]) ++ replicate (length rem) VNil)
      by (rewrite map_app, <- app_assoc; reflexivity).
    rewrite IH; [|exact Hsup|lia|lia|rewrite <- !app_assoc in *; exact Hlen].
    rewrite <- !app_assoc. reflexivity.
Qed.

Lemma flat_pairs_length (items : list (Value * Value)) :
  forallb (fun kv => supported (fst kv) && supported (snd kv)) items = true ->
  (length items
   <= length (flat_map (fun kv => encoding (fst kv) ++ encoding (snd kv)) items))%nat.
Proof.
  induction items as [|[k v] items IH]; cbn [forallb flat_map length fst snd]; [lia|].
  intros [[Hk Hv]%andb_true_iff Hitems]%andb_true_iff. rewrite !length_app.
  pose proof (encoding_nonempty k Hk). specialize (IH Hitems). lia.
Qed.

Lemma decodeType5_loop (decodeTag : decoder -> decoder) (f : nat)
    (rem : list (Value * Value)) :
  list_all (Value * Value)
    (prod_all Value (reads decodeTag) Value (reads decodeTag)) rem ->
  forallb (fun kv => supported (fst kv) && supported (snd kv)) rem = true ->
  (length (flat_map (fun kv => encoding (fst kv) ++ encoding (snd kv)) rem) < f)%nat ->
  forall (fuel : nat) (done : list (Value * Value)) (pre rest : list Z),
    (length rem < fuel)%nat ->
    len (pre ++ flat_map (fun kv => encoding (fst kv) ++ encoding (snd kv)) rem ++ rest)
      < 2 ^ 63 ->
    loop fuel
      (decodeType5_step (decode_rec decodeTag f)
         (pre ++ flat_map (fun kv => encoding (fst kv) ++ encoding (snd kv)) rem ++ rest)
         (len done + len rem))
      (len done, len pre,
       map (fun kv => (canon (fst kv), canon (snd kv))) done
       ++ replicate (length rem) (VNil, VNil))
    = Ok (VMap (map (fun kv => (canon (fst kv), canon (snd kv))) (done ++ rem)),
          len (pre ++ flat_map (fun kv => encoding (fst kv) ++ encoding (snd kv)) rem)).
Proof.
  induction 1 as [|kv Hkv rem Hrem IH]; intros Hsup Hf fuel done pre rest Hfuel Hlen;
    (destruct fuel as [|fuel]; [cbn [length] in Hfuel; lia|]).
  - apply loop_break. unfold decodeType5_step.
    replace (len done <? len done + len []) with false by len_solve.
    cbn [flat_map replicate length]. now rewrite !app_nil_r.
  - destruct Hkv as [k Hk v Hv].
    cbn [flat_map forallb length fst snd] in *.
    apply andb_true_iff in Hsup as [Hskv Hsup].
    apply andb_true_iff in Hskv as [Hsk Hsv].
    rewrite !length_app in Hf.
    set (flat := flat_map (fun kv => encoding (fst kv) ++ encoding (snd kv)) rem) in *.
    assert (Hbound : len pre + len (encoding k) + len (encoding v) + len flat + len rest < 2 ^ 63)
      by (autorewrite with len in Hlen; lia).
    pose proof (len_nonneg pre). pose proof (len_nonneg (encoding k)).
    pose proof (len_nonneg (encoding v)). pose proof (len_nonneg flat).
    pose proof (len_nonneg rest).
    erewrite loop_continue; cycle 1.
    { unfold decodeType5_step.
      replace (len done <? len done + len ((k, v) :: rem)) with true by len_solve.
      rewrite slice_from_app by reflexivity. cbn [bind].
      rewrite <- !app_assoc.
      rewrite Hk; [|exact Hsk|lia|autorewrite with len; lia].
      cbn [bind]. rewrite add_small by lia.
      replace (pre ++ encoding k ++ encoding v ++ flat ++ rest)
        with ((pre ++ encoding k) ++ encoding v ++ flat ++ rest)
        by (now rewrite <- app_assoc).
      rewrite slice_from_app by (now autorewrite with len). cbn [bind].
      rewrite Hv; [|exact Hsv|lia|autorewrite with len; lia].
      cbn [bind replicate].
      rewrite store_app by (unfold len; now rewrite length_map).
      cbn [bind]. rewrite add_small by lia. reflexivity. }
    replace (pre ++ ((encoding k ++ encoding v) ++ flat) ++ rest)
      with ((pre ++ encoding k ++ encoding v) ++ flat ++ rest)
      by (now rewrite <- !app_assoc).
    replace (len done + len ((k, v) :: rem)) with (len (done ++ [(k, v)]) + len rem)
      by len_solve.
    replace (len done + 1) with (len (done ++ [(k, v)])) by len_solve.
    replace (len pre + len (encoding k) + len (encoding v))
      with (len (pre ++ encoding k ++ encoding v)) by len_solve.
    replace (map (fun kv => (canon (fst kv), canon (snd kv))) done
             ++ (canon k, canon v) :: replicate (length rem) (VNil, VNil))
      with (map (fun kv => (canon (fst kv), canon (snd kv))) (done ++ [(k, v)])
            ++ replicate (length rem) (VNil, VNil))
      by (rewrite map_app, <- app_assoc; reflexivity).
    rewrite IH; [|exact Hsup|lia|lia|autorewrite with len; fold flat; lia].
    rewrite <- !app_assoc. reflexivity.
Qed.

Lemma head_shape (mt L : Z) :
  0 <= L -> exists i tl, 0 <= i < 28 /\ head mt L = (mt + i) :: tl.
Proof.
  intros HL. unfold head, info24, info25, info26, info27.
  by_range; do 2 eexists; (split; [|reflexivity]); lia.
Qed.

Lemma decode_body_array (decodeTag : decoder -> decoder) (f : nat)
    (items : list Value) (rest : list Z) :
  list_all Value (reads decodeTag) items ->
  forallb supported items = true ->
  (length (head type4 (len items) ++ flat_map encoding items) <= f)%nat ->
  len (head type4 (len items) ++ flat_map encoding items ++ rest) < 2 ^ 63 ->
  decode_body decodeTag (decode_rec decodeTag f) f
    (head type4 (len items) ++ flat_map encoding items ++ rest)
  = Ok (VArray (map canon items),
        len (head type4 (len items) ++ flat_map encoding items)).
Proof.
  intros Hall Hsup Hf Hlen.
  pose proof (len_nonneg items) as Hnn.
  pose proof (flat_encoding_length items Hsup) as Hflat.
  pose proof (head_nonempty type4 (len items)) as Hhead.
  rewrite length_app in Hf.
  assert (HL : len items < 2 ^ 63).
  { autorewrite with len in Hlen. rewrite head_length in Hlen.
    pose proof (width_bounds (len items)). pose proof (len_nonneg rest).
    unfold len in *. lia. }
  destruct (head_shape type4 (len items) Hnn) as (i & tl & Hi & Hhd).
  rewrite Hhd at 1. cbn [app].
  eapply decode_body_plain; [apply table_type4; exact Hi| |exact I].
  change ((type4 + i) :: tl ++ flat_map encoding items ++ rest)
    with (((type4 + i) :: tl) ++ flat_map encoding items ++ rest).
  rewrite <- Hhd. unfold decodeType4.
  rewrite decodeLength_head by (auto with cbor; lia). cbn [bind].
  unfold make. replace (len items <? 0) with false by lia. cbn [bind].
  replace (Z.to_nat (len items)) with (length items) by (unfold len; lia).
  replace (loop f _ _)
    with (loop f (decodeType4_step (decode_rec decodeTag f)
                    (head type4 (len items) ++ flat_map encoding items ++ rest)
                    (len (@nil Value) + len items))
            (len (@nil Value), len (head type4 (len items)),
             map canon [] ++ replicate (length items) VNil))
    by (rewrite head_length; reflexivity).
  rewrite decodeType4_loop by (assumption || lia). reflexivity.
Qed.

Lemma decode_body_map (decodeTag : decoder -> decoder) (f : nat)
    (items : list (Value * Value)) (rest : list Z) :
  list_all (Value * Value)
    (prod_all Value (reads decodeTag) Value (reads decodeTag)) items ->
  forallb (fun kv => supported (fst kv) && supported (snd kv)) items = true ->
  (length (head type5 (len items)
           ++ flat_map (fun kv => encoding (fst kv) ++ encoding (snd kv)) items)
   <= f)%nat ->
  len (head type5 (len items)
       ++ flat_map (fun kv => encoding (fst kv) ++ encoding (snd kv)) items ++ rest)
    < 2 ^ 63 ->
  decode_body decodeTag (decode_rec decodeTag f) f
    (head type5 (len items)
     ++ flat_map (fun kv => encoding (fst kv) ++ encoding (snd kv)) items ++ rest)
  = Ok (VMap (map (fun kv => (canon (fst kv), canon (snd kv))) items),
        len (head type5 (len items)
             ++ flat_map (fun kv => encoding (fst kv) ++ encoding (snd kv)) items)).
Proof.
  intros Hall Hsup Hf Hlen.
  pose proof (len_nonneg items) as Hnn.
  pose proof (flat_pairs_length items Hsup) as Hflat.
  pose proof (head_nonempty type5 (len items)) as Hhead.
  set (flat := flat_map (fun kv => encoding (fst kv) ++ encoding (snd kv)) items) in *.
  rewrite length_app in Hf.
  assert (HL : len items < 2 ^ 63).
  { autorewrite with len in Hlen. rewrite head_length in Hlen.
    pose proof (width_bounds (len items)). pose proof (len_nonneg rest).
    unfold len in *. lia. }
  destruct (head_shape type5 (len items) Hnn) as (i & tl & Hi & Hhd).
  rewrite Hhd at 1. cbn [app].
  eapply decode_body_plain; [apply table_type5; exact Hi| |exact I].
  change ((type5 + i) :: tl ++ flat ++ rest) with (((type5 + i) :: tl) ++ flat ++ rest).
  rewrite <- Hhd. unfold decodeType5.
  rewrite decodeLength_head by (auto with cbor; lia). cbn [bind].
  unfold make. replace (len items <? 0) with false by lia. cbn [bind].
  replace (Z.to_nat (len items)) with (length items) by (unfold len; lia).
  replace (loop f _ _)
    with (loop f (decodeType5_step (decode_rec decodeTag f)
                    (head type5 (len items) ++ flat ++ rest)
                    (len (@nil (Value * Value)) + len items))
            (len (@nil (Value * Value)), len (head type5 (len items)),
             map (fun kv => (canon (fst kv), canon (snd kv))) []
             ++ replicate (length items) (VNil, VNil)))
    by (rewrite head_length; reflexivity).
  subst flat.
  rewrite decodeType5_loop by (assumption || lia). reflexivity.
Qed.

(** Every supported value is read back from its encoding. *)
Theorem decode_ok (decodeTag : decoder -> decoder) (v : Value) : reads decodeTag v.
Proof.
  induction v as [| b | z | z | z | z | z | z | z | z | z | z | bits | bits
                  | s | s | items IH | items IH | b | b | b | k repr ];
    intros Hsup fuel rest Hfuel Hlen; cbn [supported] in Hsup;
    try discriminate;
    (destruct fuel as [|f]; [lia|]); cbn [decode_rec];
    cbn [encoding canon] in *; bounds.
  - eapply decode_body_plain; [apply table_null|reflexivity|exact I].
  - destruct b.
    + eapply decode_body_plain; [apply table_true|reflexivity|exact I].
    + eapply decode_body_plain; [apply table_false|reflexivity|exact I].
  - apply decode_body_int. lia.
  - replace (z <? 0) with false by lia. rewrite head_length.
    apply decode_body_uint. lia.
  - apply decode_body_int. lia.
  - replace (z <? 0) with false by lia. rewrite head_length.
    apply decode_body_uint. lia.
  - apply decode_body_int. lia.
  - replace (z <? 0) with false by lia. rewrite head_length.
    apply decode_body_uint. lia.
  - apply decode_body_int. lia.
  - apply decode_body_int. lia.
  - replace (z <? 0) with false by lia. rewrite head_length.
    apply decode_body_uint. lia.
  - replace (z <? 0) with false by lia. rewrite head_length.
    apply decode_body_uint. lia.
  - apply decode_body_float32. lia.
  - apply decode_body_float64. lia.
  - rewrite <- app_assoc in *. now apply decode_body_bytes.
  - rewrite <- app_assoc in *. now apply decode_body_text.
  - rewrite <- app_assoc in *.
    apply decode_body_array; [exact IH|assumption|lia|assumption].
  - rewrite <- app_assoc in *.
    apply decode_body_map; [exact IH|assumption|lia|assumption].
  - eapply decode_body_plain; [apply table_undefined|reflexivity|exact I].
Qed.

(** ** The round trip through the bytes *)

Lemma meaning_canon (v : Value) : meaning (canon v) = meaning v.
Proof.
  induction v as [| b | z | z | z | z | z | z | z | z | z | z | bits | bits
                  | s | s | items IH | items IH | b | b | b | k repr ];
    cbn [canon meaning]; try reflexivity;
    try (destruct (z <? 0); reflexivity).
  - f_equal.
    induction IH as [|v Hv items Hitems IH']; [reflexivity|].
    cbn [map]. f_equal; assumption.
  - f_equal.
    induction IH as [|kv Hkv items Hitems IH']; [reflexivity|].
    destruct Hkv as [k Hk v Hv]. cbn [map fst snd].
    f_equal; [f_equal|]; assumption.
Qed.



(** ** From the text pointer to the CBOR pointer *)

Lemma encodeTag_ok (buf : list Z) :
  2 <= len buf ->
  encodeTag (uint64 tagJsonString) buf
  = Ok (2, overwrite [type6 + info24; tagJsonString] buf).
Proof.
  intros Hlen. unfold encodeTag.
  change (uint64 tagJsonString) with 33.
  rewrite encodeUint64_ok by (change (width 33) with 2; lia). cbn [bind].
  destruct (retag_head type0 type6 33 [] buf) as (b0 & Hb0 & Hst);
    [auto with cbor..|lia|rewrite app_nil_r, head_length; exact Hlen|].
  rewrite !app_nil_r in *. rewrite Hb0. cbn [bind]. rewrite Hst. reflexivity.
Qed.

(** The tag and the text string of one segment, written after the bytes
    [W]. *)
Lemma emit_segment {A : Type} (pend W out0 part : list Z)
    (cont : Z -> list Z -> result A) :
  take (length pend) part = pend ->
  len pend <= len part ->
  len pend < 2 ^ 63 ->
  len (W ++ cbor_segment pend) <= len out0 ->
  ('(k, out) <- within (overwrite W out0) (len W) (encodeTag (uint64 tagJsonString)) ;
   let n := len W + k in
   seg <- slice_to part (len pend) ;
   '(k, out) <- within out n (encodeText seg) ;
   cont (n + k) out)
  = cont (len (W ++ cbor_segment pend)) (overwrite (W ++ cbor_segment pend) out0).
Proof.
  intros Htake Hpart Hpend Hroom. unfold cbor_segment in *.
  pose proof (len_nonneg pend). pose proof (len_nonneg W).
  autorewrite with len in Hroom. rewrite head_length in Hroom.
  pose proof (width_bounds (len pend)).
  rewrite (within_overwrite W [type6 + info24; tagJsonString] out0 _ 2);
    [|reflexivity|apply encodeTag_ok; len_solve].
  cbn [bind]. cbv zeta.
  rewrite slice_to_ok by lia. cbn [bind].
  replace (Z.to_nat (len pend)) with (length pend) by (unfold len; lia).
  rewrite Htake.
  rewrite (within_overwrite (W ++ [type6 + info24; tagJsonString])
             (head type3 (len pend) ++ pend) out0 _
             (len (head type3 (len pend) ++ pend)));
    [|now autorewrite with len|].
  - cbn [bind]. rewrite <- !app_assoc. f_equal.
    autorewrite with len. lia.
  - apply encodeText_ok; [lia|].
    autorewrite with len. rewrite head_length. len_solve.
Qed.

Lemma load_app_next {A : Type} (pre : list A) (a b : A) (post : list A) :
  load (pre ++ a :: b :: post) (len pre + 1) = Ok b.
Proof.
  change (pre ++ a :: b :: post) with (pre ++ [a] ++ b :: post).
  rewrite app_assoc. apply load_app. now autorewrite with len.
Qed.

Lemma escape_char_cases (c : Z) :
  (c = Char.tilde /\ escape_char c = [Char.tilde; Char.zero]) \/
  (c = Char.slash /\ escape_char c = [Char.tilde; Char.one]) \/
  (c <> Char.tilde /\ c <> Char.slash /\ escape_char c = [c]).
Proof.
  unfold escape_char.
  destruct (Z.eqb_spec c Char.tilde) as [->|Ht]; [now left|].
  destruct (Z.eqb_spec c Char.slash) as [->|Hs]; [right; now left|].
  right; right. auto.
Qed.

(** The loop of [FromJsonPointer] over the characters of one segment: the
    segment is appended, unescaped, to the fill of the scratch array. *)
Lemma FromJsonPointer_chars (path seg : list Z) :
  forall (fuel : nat) (pre post filled free out : list Z) (n : Z),
    path = pre ++ escape seg ++ post ->
    len seg <= len free ->
    loop (length seg + fuel) (FromJsonPointer_step path)
      (len pre, len filled, n, filled ++ free, out)
    = loop fuel (FromJsonPointer_step path)
        (len (pre ++ escape seg), len (filled ++ seg), n,
         (filled ++ seg) ++ drop (length seg) free, out).
Proof.
  induction seg as [|c seg IH]; intros fuel pre post filled free out n Hpath Hfree.
  - cbn [escape flat_map length drop Nat.add]. now rewrite !app_nil_r.
  - destruct free as [|f0 free]; [len_solve|].
    cbn [length Nat.add drop].
    unfold escape in *. cbn [flat_map] in *.
    rewrite <- app_assoc in Hpath.
    assert (Hi : (len pre <? len path) = true).
    { subst path. destruct (escape_char_cases c) as [[_ ->]|[[_ ->]|(_ & _ & ->)]];
        apply Z.ltb_lt; len_solve. }
    destruct (escape_char_cases c) as [[-> He]|[[-> He]|(Ht & Hs & He)]];
      rewrite He in *; cbn [app] in Hpath.
    + erewrite loop_continue; cycle 1.
      { unfold FromJsonPointer_step. rewrite Hi. subst path.
        rewrite load_app by reflexivity. cbn [bind].
        change (Char.tilde =? Char.tilde) with true. cbv iota.
        rewrite load_app_next. cbn [bind].
        change (Char.zero =? Char.one) with false.
        change (Char.zero =? Char.zero) with true. cbv iota.
        rewrite store_app by reflexivity. reflexivity. }
      specialize (IH fuel (pre ++ [Char.tilde; Char.zero]) post
                    (filled ++ [Char.tilde]) free out n).
      rewrite <- !app_assoc in IH. cbn [app] in IH.
      replace (len (pre ++ [Char.tilde; Char.zero])) with (len pre + 2) in IH by len_solve.
      replace (len (filled ++ [Char.tilde])) with (len filled + 1) in IH by len_solve.
      rewrite IH by (assumption || len_solve).
      rewrite <- ?app_assoc. reflexivity.
    + erewrite loop_continue; cycle 1.
      { unfold FromJsonPointer_step. rewrite Hi. subst path.
        rewrite load_app by reflexivity. cbn [bind].
        change (Char.tilde =? Char.tilde) with true. cbv iota.
        rewrite load_app_next. cbn [bind].
        change (Char.one =? Char.one) with true. cbv iota.
        rewrite store_app by reflexivity. reflexivity. }
      specialize (IH fuel (pre ++ [Char.tilde; Char.one]) post
                    (filled ++ [Char.slash]) free out n).
      rewrite <- !app_assoc in IH. cbn [app] in IH.
      replace (len (pre ++ [Char.tilde; Char.one])) with (len pre + 2) in IH by len_solve.
      replace (len (filled ++ [Char.slash])) with (len filled + 1) in IH by len_solve.
      rewrite IH by (assumption || len_solve).
      rewrite <- ?app_assoc. reflexivity.
    + erewrite loop_continue; cycle 1.
      { unfold FromJsonPointer_step. rewrite Hi. subst path.
        rewrite load_app by reflexivity. cbn [bind].
        replace (c =? Char.tilde) with false by lia.
        replace (c =? Char.slash) with false by lia.
        rewrite store_app by reflexivity. reflexivity. }
      specialize (IH fuel (pre ++ [c]) post (filled ++ [c]) free out n).
      rewrite <- !app_assoc in IH. cbn [app] in IH.
      replace (len (pre ++ [c])) with (len pre + 1) in IH by len_solve.
      replace (len (filled ++ [c])) with (len filled + 1) in IH by len_solve.
      rewrite IH by (assumption || len_solve).
      rewrite <- ?app_assoc. reflexivity.
Qed.

Lemma escape_length (seg : list Z) : (length seg <= length (escape seg))%nat.
Proof.
  unfold escape. induction seg as [|c seg IH]; cbn [flat_map length]; [lia|].
  rewrite length_app.
  destruct (escape_char_cases c) as [[_ ->]|[[_ ->]|(_ & _ & ->)]];
    cbn [length]; lia.
Qed.

Lemma passed_length (rem : list (list Z)) :
  forall pend W, len W <= len (snd (passed pend W rem)).
Proof.
  induction rem as [|seg rem IH]; intros pend W; cbn [passed snd]; [lia|].
  specialize (IH seg (W ++ emitted pend)). autorewrite with len in IH.
  pose proof (len_nonneg (emitted pend)). lia.
Qed.

(** The loop of [FromJsonPointer] over the segments that remain. *)
Lemma FromJsonPointer_segments (path out0 : list Z) (rem : list (list Z)) :
  forall (fuel : nat) (pre pend W part : list Z),
    path = pre ++ pointer_text rem ->
    segments_fit rem = true ->
    len part = maxPartSize ->
    take (length pend) part = pend ->
    len pend <= maxPartSize ->
    (length (pointer_text rem) < fuel)%nat ->
    len (snd (passed pend W rem)) <= len out0 ->
    exists part',
      loop fuel (FromJsonPointer_step path)
        (len pre, len pend, len W, part, overwrite W out0)
      = Ok (len (fst (passed pend W rem)), len (snd (passed pend W rem)),
            part', overwrite (snd (passed pend W rem)) out0) /\
      len part' = maxPartSize /\
      take (length (fst (passed pend W rem))) part' = fst (passed pend W rem).
Proof.
  induction rem as [|seg rem IH];
    intros fuel pre pend W part Hpath Hfit Hpart Htake Hpend Hfuel Hroom;
    (destruct fuel as [|fuel]; [lia|]).
  - exists part. cbn [passed fst snd]. split; [|auto].
    apply loop_break. unfold FromJsonPointer_step.
    cbn [pointer_text flat_map] in Hpath. rewrite app_nil_r in Hpath. subst path.
    now rewrite Z.ltb_irrefl.
  - cbn [passed] in *. unfold segments_fit in Hfit. cbn [forallb] in Hfit.
    apply andb_true_iff in Hfit as [Hseg Hfit]. apply Z.leb_le in Hseg.
    cbn [pointer_text flat_map] in Hpath, Hfuel. fold (pointer_text rem) in *.
    rewrite !length_app in Hfuel. cbn [length] in Hfuel.
    pose proof (escape_length seg) as Hesc.
    pose proof (passed_length rem seg (W ++ emitted pend)) as Hmono.
    assert (Hstep :
      FromJsonPointer_step path (len pre, len pend, len W, part, overwrite W out0)
      = Ok (inl (len (pre ++ [Char.slash]), len (@nil Z), len (W ++ emitted pend),
                 [] ++ part, overwrite (W ++ emitted pend) out0))).
    { unfold FromJsonPointer_step.
      replace (len pre <? len path) with true by (subst path; len_solve).
      subst path. cbn [app]. rewrite load_app by reflexivity. cbn [bind].
      change (Char.slash =? Char.tilde) with false.
      change (Char.slash =? Char.slash) with true. cbv iota.
      rewrite Z.gtb_ltb. unfold emitted in *.
      destruct (0 <? len pend) eqn:Hoff.
      - etransitivity.
        + apply (emit_segment pend W out0 part
                   (fun n out => Ok (inl (len pre + 1, 0, n, part, out))));
            try assumption; unfold maxPartSize in *; lia.
        + replace (len pre + 1) with (len (pre ++ [Char.slash])) by len_solve.
          reflexivity.
      - rewrite app_nil_r.
        replace (len pend) with 0 by (pose proof (len_nonneg pend); lia).
        replace (len pre + 1) with (len (pre ++ [Char.slash])) by len_solve.
        reflexivity. }
    rewrite (loop_continue _ _ _ _ Hstep).
    replace fuel with (length seg + (fuel - length seg))%nat by lia.
    rewrite (FromJsonPointer_chars path seg _ (pre ++ [Char.slash])
               (pointer_text rem) [] part);
      [|rewrite <- app_assoc; exact Hpath|lia].
    cbn [app].
    apply (IH (fuel - length seg)%nat ((pre ++ [Char.slash]) ++ escape seg) seg
             (W ++ emitted pend) (seg ++ drop (length seg) part)).
    + rewrite <- !app_assoc. exact Hpath.
    + exact Hfit.
    + unfold maxPartSize in *. len_solve.
    + apply take_app_length.
    + exact Hseg.
    + lia.
    + exact Hroom.
Qed.

Lemma passed_emits (rem : list (list Z)) :
  forall pend W,
    inner_segments_nonempty (pend :: rem) = true ->
    snd (passed pend W rem) ++ cbor_segment (fst (passed pend W rem))
    = W ++ flat_map cbor_segment (pend :: rem).
Proof.
  induction rem as [|seg rem IH]; intros pend W Hne.
  - cbn [passed fst snd flat_map]. now rewrite app_nil_r.
  - cbn [passed]. cbn [inner_segments_nonempty] in Hne.
    apply andb_true_iff in Hne as [Hpend Hne].
    rewrite IH by exact Hne. unfold emitted. rewrite Hpend.
    cbn [flat_map]. now rewrite <- app_assoc.
Qed.

Lemma passed_empty_last (rem : list (list Z)) :
  forall pend W,
    fst (passed pend W rem) = [] ->
    exists pre, pointer_text (pend :: rem) = pre ++ [Char.slash].
Proof.
  induction rem as [|seg rem IH]; intros pend W Hlast.
  - cbn [passed fst] in Hlast. subst pend. now exists [].
  - cbn [passed] in Hlast. destruct (IH _ _ Hlast) as [pre Hpre].
    exists ((Char.slash :: escape pend) ++ pre).
    unfold pointer_text in *. cbn [flat_map] in *.
    rewrite <- app_assoc. f_equal. exact Hpre.
Qed.

(** [FromJsonPointer] on the text of a list of segments writes their CBOR
    pointer, when every segment fits the scratch array and no segment but
    the last is empty. *)
Lemma FromJsonPointer_ok (segs : list (list Z)) (fuel : nat) (out : list Z) :
  segments_fit segs = true ->
  inner_segments_nonempty segs = true ->
  (length (pointer_text segs) < fuel)%nat ->
  len (cbor_pointer segs) <= len out ->
  FromJsonPointer fuel (pointer_text segs) out
  = Ok (len (cbor_pointer segs), overwrite (cbor_pointer segs) out).
Proof.
  intros Hfit Hne Hfuel Hroom. unfold FromJsonPointer.
  set (part := replicate (Z.to_nat maxPartSize) 0).
  assert (Hpart : len part = maxPartSize) by (subst part; now autorewrite with len).
  destruct segs as [|seg rem].
  - cbn [pointer_text flat_map]. change (0 <? len []) with false. cbv iota.
    cbn [bind]. unfold encodeTextStart.
    rewrite single_byte_ok by (unfold cbor_pointer in Hroom; len_solve).
    cbn [bind].
    destruct fuel as [|fuel]; [cbn [length] in Hfuel; lia|].
    rewrite (loop_break _ _ _ (0, 1, part, overwrite [hdr type3 (uint8 indefiniteLength)] out))
      by reflexivity.
    cbn [bind]. change (0 >? 0) with false. cbn [orb]. cbv iota. cbn [bind].
    unfold encodeBreakStop.
    rewrite (within_overwrite [hdr type3 (uint8 indefiniteLength)]
               [hdr type7 (uint8 itemBreak)] out 1 1);
      [reflexivity|reflexivity|].
    apply single_byte_ok. unfold cbor_pointer in Hroom. len_solve.
  - set (path := pointer_text (seg :: rem)) in *.
    assert (Hpath : path = Char.slash :: escape seg ++ pointer_text rem) by reflexivity.
    assert (Hpos : (0 <? len path) = true)
      by (apply Z.ltb_lt; rewrite Hpath; len_solve).
    rewrite Hpos. rewrite Hpath at 1. rewrite load_head. cbn [bind].
    change (negb (Char.slash =? Char.slash)) with false. cbv iota. cbn [bind].
    pose proof (passed_emits rem seg [type3 + indefiniteLength] Hne) as Hemit.
    set (pend' := fst (passed seg [type3 + indefiniteLength] rem)) in *.
    set (W' := snd (passed seg [type3 + indefiniteLength] rem)) in *.
    assert (Hall : cbor_pointer (seg :: rem)
                   = W' ++ cbor_segment pend' ++ [type7 + itemBreak]).
    { unfold cbor_pointer. rewrite app_assoc, Hemit. reflexivity. }
    rewrite Hall in *. autorewrite with len in Hroom.
    pose proof (len_nonneg W'). pose proof (len_nonneg (cbor_segment pend')).
    pose proof (passed_length rem seg [type3 + indefiniteLength]) as Hmono.
    fold W' in Hmono. autorewrite with len in Hmono.
    unfold encodeTextStart. rewrite single_byte_ok by lia. cbn [bind].
    destruct (FromJsonPointer_segments path out (seg :: rem) fuel []
                [] [type3 + indefiniteLength] part)
      as (part' & Hloop & Hpart' & Htake);
      [reflexivity|exact Hfit|exact Hpart|reflexivity|unfold maxPartSize; len_solve
      |exact Hfuel| |].
    { cbn [passed]. unfold emitted. change (0 <? len []) with false.
      rewrite app_nil_r. fold W'. lia. }
    cbn [passed] in Hloop, Htake. unfold emitted in Hloop, Htake.
    change (0 <? len []) with false in Hloop, Htake.
    rewrite app_nil_r in Hloop, Htake. fold pend' W' in Hloop, Htake.
    change (len []) with 0 in Hloop. change (len [type3 + indefiniteLength]) with 1 in Hloop.
    change (hdr type3 (uint8 indefiniteLength)) with (type3 + indefiniteLength).
    rewrite Hloop. cbn [bind].
    assert (Hlast : exists c, load path (len path - 1) = Ok c /\
                    ((len pend' >? 0) || (c =? Char.slash)) = true).
    { destruct pend' as [|p0 pend''] eqn:Hpend'.
      - destruct (passed_empty_last rem seg [type3 + indefiniteLength]) as [pre Hpre];
          [assumption|].
        exists Char.slash. fold path in Hpre. rewrite Hpre. split.
        + apply load_app. len_solve.
        + apply orb_true_r.
      - destruct (load path (len path - 1)) as [c| |] eqn:Hc.
        + exists c. split; [reflexivity|]. apply orb_true_iff. left.
          apply Z.gtb_lt. len_solve.
        + exfalso. unfold load in Hc.
          replace ((0 <=? len path - 1) && (len path - 1 <? len path)) with true in Hc
            by lia.
          destruct (path !! Z.to_nat (len path - 1)) eqn:Hl; [discriminate|].
          apply lookup_ge_None in Hl. unfold len in *. lia.
        + exfalso. unfold load in Hc.
          destruct ((0 <=? len path - 1) && (len path - 1 <? len path)); [|discriminate].
          destruct (path !! Z.to_nat (len path - 1)); discriminate. }
    destruct Hlast as (c & Hc & Hcond). rewrite Hc. cbn [bind]. rewrite Hcond.
    assert (Hfits : forall rem' pend0 W0,
               segments_fit (pend0 :: rem') = true ->
               len (fst (passed pend0 W0 rem')) <= maxPartSize).
    { induction rem' as [|s rem' IH']; intros pend0 W0 Hf; cbn [passed fst];
        unfold segments_fit in *; cbn [forallb] in Hf;
        apply andb_true_iff in Hf as [Hp Hf]; [now apply Z.leb_le in Hp|].
      apply IH'. exact Hf. }
    specialize (Hfits rem seg [type3 + indefiniteLength] Hfit). fold pend' in Hfits.
    cbv iota. erewrite bind_ok; cycle 1.
    { apply (emit_segment pend' W' out part' (fun n out => Ok (n, out)));
        [exact Htake|lia|unfold maxPartSize in *; lia|len_solve]. }
    cbv beta iota. unfold encodeBreakStop.
    rewrite (within_overwrite (W' ++ cbor_segment pend')
               [hdr type7 (uint8 itemBreak)] out _ 1);
      [|reflexivity|apply single_byte_ok; len_solve].
    cbn [bind]. rewrite <- app_assoc. f_equal. f_equal. len_solve.
Qed.

(** ** From the CBOR pointer back to the text pointer *)

Lemma store_overwrite (T out0 : list Z) (a n : Z) :
  n = len T -> len T < len out0 ->
  store (overwrite T out0) n a = Ok (overwrite (T ++ [a]) out0).
Proof.
  intros -> Hlen. unfold overwrite.
  destruct (out0 !! length T) as [x|] eqn:Hx.
  - rewrite (drop_S _ _ _ Hx). rewrite store_app by reflexivity.
    rewrite <- app_assoc, length_app. cbn [app length].
    now rewrite Nat.add_1_r.
  - apply lookup_ge_None in Hx. unfold len in Hlen. lia.
Qed.

(** The inner loop of [ToJsonPointer]: the bytes of one segment are written
    escaped after the text [T]. *)
Lemma ToJsonPointer_chars (bin out0 seg : list Z) :
  forall (fuel : nat) (pre post T : list Z) (ln : Z),
    bin = pre ++ seg ++ post ->
    ln = len pre + len seg ->
    len (T ++ escape seg) <= len out0 ->
    (length seg < fuel)%nat ->
    loop fuel (ToJsonPointer_segment bin ln) (len pre, len T, overwrite T out0)
    = Ok (len (pre ++ seg), len (T ++ escape seg), overwrite (T ++ escape seg) out0).
Proof.
  induction seg as [|c seg IH]; intros fuel pre post T ln Hbin Hln Hroom Hfuel;
    (destruct fuel as [|fuel]; [lia|]).
  - apply loop_break. unfold ToJsonPointer_segment.
    replace (len pre <? ln) with false by len_solve.
    cbn [escape flat_map]. now rewrite !app_nil_r.
  - unfold escape in *. cbn [flat_map length] in *.
    assert (Hstep :
      ToJsonPointer_segment bin ln (len pre, len T, overwrite T out0)
      = Ok (inl (len (pre ++ [c]), len (T ++ escape_char c),
                 overwrite (T ++ escape_char c) out0))).
    { unfold ToJsonPointer_segment.
      replace (len pre <? ln) with true by len_solve.
      subst bin. cbn [app]. rewrite load_app by reflexivity. cbn [bind].
      rewrite app_assoc in Hroom. autorewrite with len in Hroom.
      pose proof (len_nonneg (flat_map escape_char seg)).
      pose proof (len_nonneg T).
      replace (len pre + 1) with (len (pre ++ [c])) by len_solve.
      destruct (escape_char_cases c) as [[-> He]|[[-> He]|(Ht & Hs & He)]];
        rewrite He in *.
      - change (Char.tilde =? Char.slash) with false.
        change (Char.tilde =? Char.tilde) with true. cbv iota.
        rewrite store_overwrite by len_solve. cbn [bind].
        rewrite store_overwrite by len_solve. cbn [bind].
        rewrite <- app_assoc. cbn [app].
        replace (len T + 2) with (len (T ++ [Char.tilde; Char.zero])) by len_solve.
        reflexivity.
      - change (Char.slash =? Char.slash) with true. cbv iota.
        rewrite store_overwrite by len_solve. cbn [bind].
        rewrite store_overwrite by len_solve. cbn [bind].
        rewrite <- app_assoc. cbn [app].
        replace (len T + 2) with (len (T ++ [Char.tilde; Char.one])) by len_solve.
        reflexivity.
      - replace (c =? Char.slash) with false by lia.
        replace (c =? Char.tilde) with false by lia.
        rewrite store_overwrite by len_solve. cbn [bind].
        replace (len T + 1) with (len (T ++ [c])) by len_solve.
        reflexivity. }
    rewrite (loop_continue _ _ _ _ Hstep).
    rewrite (IH fuel (pre ++ [c]) post (T ++ escape_char c) ln).
    + rewrite <- !app_assoc. reflexivity.
    + rewrite <- app_assoc. exact Hbin.
    + len_solve.
    + rewrite <- app_assoc. exact Hroom.
    + lia.
Qed.
